(** * ava/shared/datatypes: StructuredInput and the StringSlice array codec

    A shallow embedding of [datatypes.go].  Go strings are byte strings and
    are modelled by [string]; a Go [int] is a [Z]; a Go slice of strings is
    either [nil] or a sequence of elements; methods with a pointer receiver
    pass the receiver's state explicitly. *)

From Stdlib Require Import ZArith Ascii String.
From stdpp Require Import base gmap strings list.

Local Open Scope Z_scope.

(** ** Characters that cannot be written inside a literal *)

Definition DQ : ascii := "034"%char.   (* the double quote *)
Definition BS : ascii := "092"%char.   (* the backslash *)
Definition LF : ascii := "010"%char.   (* the line feed *)
Definition CR : ascii := "013"%char.   (* the carriage return *)
Definition COMMA : ascii := ","%char.

Definition str1 (c : ascii) : string := String c "".

(** ** Go slices of strings *)

(** [type StringSlice []string]: [None] is the nil slice. *)
Definition StringSlice : Type := option (list string).

Definition elems (s : StringSlice) : list string := default [] s.

(** [len(s)] *)
Definition len (s : StringSlice) : Z := Z.of_nat (length (elems s)).

(** [append(s, w)]: the result is never nil. *)
Definition append (s : StringSlice) (w : string) : StringSlice :=
  Some (elems s ++ [w]).

(** [len(s)] of a string. *)
Definition slen (s : string) : Z := Z.of_nat (String.length s).

(** The slice expression [s[lo:hi]] of a string; [None] is the run-time
    panic "slice bounds out of range". *)
Definition slice_str (s : string) (lo hi : Z) : option string :=
  if bool_decide (0 ≤ lo ∧ lo ≤ hi ∧ hi ≤ slen s)
  then Some (String.substring (Z.to_nat lo) (Z.to_nat (hi - lo)) s)
  else None.

(** [strings.Join(elems, sep)] *)
Fixpoint strings_Join (l : list string) (sep : string) : string :=
  match l with
  | [] => ""
  | [x] => x
  | x :: rest => x +:+ sep +:+ strings_Join rest sep
  end.

(** ** Errors *)

Inductive csv_error : Type :=
  | ErrBareQuote   (* bare quote in a non-quoted field *)
  | ErrQuote       (* extraneous or missing quote in a quoted field *)
  | EOF.           (* io.EOF *)

Inductive error : Type :=
  | ErrInvalidClass
  | ErrInvalidOddParameter
  | ErrScanSource              (* "scan source was not []bytes" *)
  | ErrCsv (e : csv_error).

(** ** Word classes *)

Definition CommandI : Z := 1.
Definition ActorI   : Z := 2.
Definition ObjectI  : Z := 3.
Definition TimeI    : Z := 4.
Definition PlaceI   : Z := 5.
Definition NoneI    : Z := 6.

Definition FlexIdTypeEmail : Z := 1.
Definition FlexIdTypePhone : Z := 2.

(** [var Pronouns map[string]int] *)
Definition Pronouns : gmap string Z :=
  list_to_map
    [ ("me", ActorI); ("us", ActorI); ("you", ActorI); ("him", ActorI);
      ("her", ActorI); ("them", ActorI); ("it", ObjectI); ("that", ObjectI);
      ("there", PlaceI); ("then", TimeI) ].

(** [Pronouns[w]]: a missing key reads as the zero value. *)
Definition Pronouns_at (w : string) : Z := default 0 (Pronouns !! w).

(** ** StructuredInput *)

Record StructuredInput : Type := mkSI {
  UserId     : Z;
  FlexId     : string;
  FlexIdType : Z;
  Sentence   : string;
  Commands   : StringSlice;
  Actors     : StringSlice;
  Objects    : StringSlice;
  Times      : StringSlice;
  Places     : StringSlice
}.

(** The zero value of the struct. *)
Definition zeroSI : StructuredInput :=
  mkSI 0 "" 0 "" None None None None None.

Record WordClass : Type := mkWC { Word : string; Class : Z }.

Definition NL : string := str1 LF.

(** One step of [String]: [if len(l) > 0 { s += name + Join(l, ", ") + "\n" }] *)
Definition add_line (s name : string) (l : StringSlice) : string :=
  if bool_decide (len l > 0)
  then s +:+ (name +:+ strings_Join (elems l) ", " +:+ NL)
  else s.

(** [func (si *StructuredInput) String() string]; [None] is a panic of the
    final slice expression. *)
Definition StructuredInput_String (si : StructuredInput) : option string :=
  let s := NL in
  let s := add_line s "Command: " (Commands si) in
  let s := add_line s "Actors: " (Actors si) in
  let s := add_line s "Objects: " (Objects si) in
  let s := add_line s "Times: " (Times si) in
  let s := add_line s "Places: " (Places si) in
  match slice_str s 0 (slen s - 1) with
  | Some t => Some (t +:+ NL)
  | None => None
  end.

(** What [log.Error("invalid class: ", w.Class)] writes. *)
Inductive log_entry : Type :=
  | LogInvalidClass (c : Z).

(** The body of the [for _, w := range wc] loop of [Add]: the receiver after
    the loop, what was logged, and the returned error. *)
Fixpoint Add_loop (si : StructuredInput) (wc : list WordClass)
  : StructuredInput * list log_entry * option error :=
  match wc with
  | [] => (si, [], None)
  | w :: rest =>
      if bool_decide (Class w = CommandI) then
        Add_loop (mkSI (UserId si) (FlexId si) (FlexIdType si) (Sentence si)
                    (append (Commands si) (Word w)) (Actors si) (Objects si)
                    (Times si) (Places si)) rest
      else if bool_decide (Class w = ActorI) then
        Add_loop (mkSI (UserId si) (FlexId si) (FlexIdType si) (Sentence si)
                    (Commands si) (append (Actors si) (Word w)) (Objects si)
                    (Times si) (Places si)) rest
      else if bool_decide (Class w = ObjectI) then
        Add_loop (mkSI (UserId si) (FlexId si) (FlexIdType si) (Sentence si)
                    (Commands si) (Actors si) (append (Objects si) (Word w))
                    (Times si) (Places si)) rest
      else if bool_decide (Class w = TimeI) then
        Add_loop (mkSI (UserId si) (FlexId si) (FlexIdType si) (Sentence si)
                    (Commands si) (Actors si) (Objects si)
                    (append (Times si) (Word w)) (Places si)) rest
      else if bool_decide (Class w = PlaceI) then
        Add_loop (mkSI (UserId si) (FlexId si) (FlexIdType si) (Sentence si)
                    (Commands si) (Actors si) (Objects si) (Times si)
                    (append (Places si) (Word w))) rest
      else if bool_decide (Class w = NoneI) then
        Add_loop si rest
      else
        (si, [LogInvalidClass (Class w)], Some ErrInvalidClass)
  end.

(** [func (si *StructuredInput) Add(wc []WordClass) error] *)
Definition StructuredInput_Add (si : StructuredInput) (wc : list WordClass)
  : StructuredInput * list log_entry * option error :=
  if bool_decide (Z.of_nat (length wc) = 0)
  then (si, [], Some ErrInvalidOddParameter)
  else Add_loop si wc.

(** One [for _, w := range l { if Pronouns[w] != 0 { p = append(p, w) } }] *)
Fixpoint collect_pronouns (p : StringSlice) (l : list string) : StringSlice :=
  match l with
  | [] => p
  | w :: rest =>
      if bool_decide (Pronouns_at w ≠ 0)
      then collect_pronouns (append p w) rest
      else collect_pronouns p rest
  end.

(** [func (si *StructuredInput) Pronouns() []string] *)
Definition StructuredInput_Pronouns (si : StructuredInput) : StringSlice :=
  let p : StringSlice := Some [] in
  let p := collect_pronouns p (elems (Objects si)) in
  let p := collect_pronouns p (elems (Actors si)) in
  let p := collect_pronouns p (elems (Times si)) in
  let p := collect_pronouns p (elems (Places si)) in
  p.

(** [func (s StringSlice) Last() string]; [None] would be an index panic. *)
Definition StringSlice_Last (s : StringSlice) : option string :=
  if bool_decide (len s = 0) then Some ""
  else elems s !! Z.to_nat (len s - 1).

(** ** The string functions of the Go library used by the codec *)

Definition starts_with (c : ascii) (s : string) : bool :=
  match s with
  | String a _ => bool_decide (a = c)
  | EmptyString => false
  end.

(** [strings.Replace(s, old, new, -1)] for a non-empty [old] (it is non-empty
    at every call below): the non-overlapping occurrences of [old], found from
    left to right, are replaced by [new].  [skip] counts the bytes of an
    occurrence that are still to be passed over. *)
Fixpoint Replace_from (skip : nat) (s old new : string) : string :=
  match s with
  | EmptyString => ""
  | String c s' =>
      match skip with
      | S k => Replace_from k s' old new
      | O =>
          if String.prefix old s
          then new +:+ Replace_from (String.length old - 1) s' old new
          else String c (Replace_from 0 s' old new)
      end
  end.

Definition strings_Replace (s old new : string) : string :=
  Replace_from 0 s old new.

(** ** [quoteEscapeRegex]

    The pattern is: one character other than a backslash, then any number of
    pairs of backslashes (these two make group 1), then a backslash and a
    double quote.

    The pattern has no alternation, so a match at a position is searched by
    the greedy star with backtracking.  [[^\\]] is matched against one byte:
    a match then begins at the last byte of a multi-byte character instead of
    its first, which leaves the text produced by the replacement the same. *)

(** The pairs of backslashes and the final backslash and double quote at the
    head of [s]: the text of the repeated group and the text after the match.
    One more pair of backslashes is tried first; where the pair matches, the
    final backslash and double quote cannot match at the same place. *)
Fixpoint match_pairs_tail (s : string) : option (string * string) :=
  match s with
  | String a (String b s') =>
      if bool_decide (a = BS) then
        if bool_decide (b = BS) then
          match match_pairs_tail s' with
          | Some (g, r) => Some (String BS (String BS g), r)
          | None => None
          end
        else if bool_decide (b = DQ) then Some ("", s')
        else None
      else None
  | _ => None
  end.

(** A match of [quoteEscapeRegex] at the head of [s]: group 1 and the text
    after the match. *)
Definition quoteEscapeRegex_match (s : string) : option (string * string) :=
  match s with
  | String c s' =>
      if bool_decide (c = BS) then None
      else match match_pairs_tail s' with
           | Some (g, r) => Some (String c g, r)
           | None => None
           end
  | EmptyString => None
  end.

(** [quoteEscapeRegex.ReplaceAllString(src, repl)] where [repl] is [$1]
    followed by two double quotes: the leftmost match is replaced by group 1
    and two double quotes, and the search goes on after the match. *)
Fixpoint ReplaceAllString_from (skip : nat) (src : string) : string :=
  match src with
  | EmptyString => ""
  | String c src' =>
      match skip with
      | S k => ReplaceAllString_from k src'
      | O =>
          match quoteEscapeRegex_match src with
          | Some (g1, _) =>
              g1 +:+ String DQ (String DQ
                (ReplaceAllString_from (String.length g1 + 1) src'))
          | None => String c (ReplaceAllString_from 0 src')
          end
      end
  end.

Definition quoteEscapeRegex_ReplaceAllString (src : string) : string :=
  ReplaceAllString_from 0 src.

(** ** The reader of [encoding/csv], with the settings of [csv.NewReader]
    (comma separator, no comment character, no lazy quotes, no trimming) *)

(** [ReadSlice('\n')]: the bytes up to and including the first line feed, and
    the bytes left in the reader. *)
Fixpoint take_line (s : string) : string * string :=
  match s with
  | EmptyString => ("", "")
  | String c s' =>
      if bool_decide (c = LF) then (str1 LF, s')
      else let '(l, r) := take_line s' in (String c l, r)
  end.

(** The last byte of a string. *)
Fixpoint last_byte (s : string) : option ascii :=
  match s with
  | EmptyString => None
  | String c EmptyString => Some c
  | String _ s' => last_byte s'
  end.

(** [line[:len(line)-1]] *)
Fixpoint drop_last (s : string) : string :=
  match s with
  | EmptyString => ""
  | String c EmptyString => ""
  | String c s' => String c (drop_last s')
  end.

(** [lengthNL]: 1 when the line ends with a line feed. *)
Definition lengthNL (line : string) : nat :=
  if bool_decide (last_byte line = Some LF) then 1%nat else 0%nat.

(** [readLine]: the next line, the bytes left, and whether the error is
    [io.EOF].  A carriage return before the end of the input is dropped and a
    carriage return before the line feed is removed. *)
Definition readLine (input : string) : string * string * bool :=
  let '(line, rest) := take_line input in
  if bool_decide (line = "") then ("", rest, true)
  else
    let line :=
      if bool_decide (last_byte line ≠ Some LF ∧ last_byte line = Some CR)
      then drop_last line else line in
    let line :=
      if bool_decide (last_byte line = Some LF ∧
                      last_byte (drop_last line) = Some CR)
      then drop_last (drop_last line) +:+ str1 LF else line in
    (line, rest, false).

(** [bytes.IndexByte(line, c)] *)
Fixpoint IndexByte (line : string) (c : ascii) : option nat :=
  match line with
  | EmptyString => None
  | String a line' =>
      if bool_decide (a = c) then Some 0%nat
      else S <$> IndexByte line' c
  end.

(** [line[:i]] and [line[i:]] for [i] within the line. *)
Fixpoint take_str (i : nat) (s : string) : string :=
  match i, s with
  | S k, String c s' => String c (take_str k s')
  | _, _ => ""
  end.

Fixpoint drop_str (i : nat) (s : string) : string :=
  match i, s with
  | S k, String _ s' => drop_str k s'
  | _, _ => s
  end.

(** The result of reading a record: the fields read and the error. *)
Definition csv_result : Type := StringSlice * option csv_error.

(** The [parseField] loop of [readRecord].  [line] is what is left of the
    current line, [input] what is left in the reader, [fields] the fields
    completed so far; [quotedField] is the inner loop of a quoted field, with
    the bytes of the field read so far in [buf].  Every turn of either loop
    passes over a byte of [line] or [input]; the result is [None] when [fuel]
    turns are not enough. *)
Fixpoint parseField (fuel : nat) (line input : string) (fields : list string)
  {struct fuel} : option csv_result :=
  match fuel with
  | O => None
  | S fuel' =>
      if starts_with DQ line then
        quotedField fuel' (drop_str 1 line) input "" fields
      else
        let i := IndexByte line COMMA in
        let field :=
          match i with
          | Some i => take_str i line
          | None => take_str (String.length line - lengthNL line) line
          end in
        match IndexByte field DQ with
        | Some _ => Some (Some fields, Some ErrBareQuote)
        | None =>
            match i with
            | Some i =>
                parseField fuel' (drop_str (i + 1) line) input
                  (fields ++ [field])
            | None => Some (Some (fields ++ [field]), None)
            end
        end
  end
with quotedField (fuel : nat) (line input buf : string) (fields : list string)
  {struct fuel} : option csv_result :=
  match fuel with
  | O => None
  | S fuel' =>
      match IndexByte line DQ with
      | Some i =>
          let buf := buf +:+ take_str i line in
          let line := drop_str (i + 1) line in
          if starts_with DQ line then
            quotedField fuel' (drop_str 1 line) input (buf +:+ str1 DQ) fields
          else if starts_with COMMA line then
            parseField fuel' (drop_str 1 line) input (fields ++ [buf])
          else if bool_decide (lengthNL line = String.length line) then
            Some (Some (fields ++ [buf]), None)
          else Some (Some fields, Some ErrQuote)
      | None =>
          if bool_decide (0 < String.length line)%nat then
            let '(line', input', _) := readLine input in
            quotedField fuel' line' input' (buf +:+ line) fields
          else Some (Some fields, Some ErrQuote)
      end
  end.

(** The start of [readRecord]: empty lines are passed over; at the end of the
    input the record is nil and the error [io.EOF]. *)
Fixpoint readRecord (fuel : nat) (input : string) : option csv_result :=
  match fuel with
  | O => None
  | S fuel' =>
      let '(line, rest, eof) := readLine input in
      if eof then Some (None, Some EOF)
      else if bool_decide (String.length line = lengthNL line)
      then readRecord fuel' rest
      else parseField (S (String.length line + String.length rest))
             line rest []
  end.

(** [csv.NewReader(strings.NewReader(str)).Read()] *)
Definition csv_Read (str : string) : option csv_result :=
  readRecord (S (String.length str)) str.

(** ** The codec *)

(** What [database/sql] hands to [Scan]. *)
Inductive src_value : Type :=
  | SrcBytes (b : string)
  | SrcString (s : string)
  | SrcInt (z : Z)
  | SrcNil.

(** How a call ends: a run-time panic, or a return with the receiver's new
    value and the error. *)
Inductive scan_outcome : Type :=
  | Panics
  | Returns (s : StringSlice) (err : option error).

Definition quoteEscape_backslashes : string := String BS (String BS "").

(** [func (s *StringSlice) Scan(src interface{}) error]; [s] is the value of
    the receiver before the call.  The reader returns for every text (lemma
    [csv_Read_total]), so the only panic is that of the slice expression. *)
Definition StringSlice_Scan (s : StringSlice) (src : src_value)
  : scan_outcome :=
  match src with
  | SrcBytes asBytes =>
      let str := asBytes in
      let str := quoteEscapeRegex_ReplaceAllString str in
      let str := strings_Replace str quoteEscape_backslashes (str1 BS) in
      match slice_str str 1 (slen str - 1) with
      | None => Panics
      | Some str =>
          match csv_Read str with
          | None => Panics
          | Some (slice, err) =>
              match err with
              | Some EOF => Returns slice None
              | Some e => Returns s (Some (ErrCsv e))
              | None => Returns slice None
              end
          end
      end
  | _ => Returns s (Some ErrScanSource)
  end.

(** The text stored for one element: backslashes tripled, double quotes
    preceded by a backslash, the whole between double quotes. *)
Definition quote_elem (elem : string) : string :=
  str1 DQ +:+
  strings_Replace
    (strings_Replace elem (str1 BS) (String BS (String BS (str1 BS))))
    (str1 DQ) (String BS (str1 DQ)) +:+
  str1 DQ.

(** The loop [for i, elem := range s { s[i] = ... }] from index [i] on, with
    [n] elements to go.  [arr] is the array behind the slice: the receiver is
    passed by value, but it shares that array with the slice of the caller,
    which sees every assignment. *)
Fixpoint Value_loop (n i : nat) (arr : list string) : list string :=
  match n with
  | O => arr
  | S n' =>
      match arr !! i with
      | Some elem => Value_loop n' (S i) (<[i := quote_elem elem]> arr)
      | None => arr
      end
  end.

(** [func (s StringSlice) Value() (driver.Value, error)]: the elements of the
    caller's slice after the call, the returned text and the error. *)
Definition StringSlice_Value (s : StringSlice)
  : StringSlice * string * option error :=
  let s' :=
    match s with
    | Some arr => Some (Value_loop (length arr) 0 arr)
    | None => None
    end in
  (s', "{" +:+ strings_Join (elems s') "," +:+ "}", None).

(** The text returned by [Value]. *)
Definition Value_text (s : StringSlice) : string := (StringSlice_Value s).1.2.

(** The elements of the caller's slice after [Value]. *)
Definition Value_after (s : StringSlice) : StringSlice :=
  (StringSlice_Value s).1.1.

(** [Scan] applied to the bytes of the text returned by [Value]. *)
Definition decode_encode (l : StringSlice) : scan_outcome :=
  StringSlice_Scan None (SrcBytes (Value_text l)).

(** ** Vocabulary of the statements *)

(** The fixed set of pronoun tokens. *)
Definition pronoun_set : list string :=
  ["me"; "us"; "you"; "him"; "her"; "them"; "it"; "that"; "there"; "then"].

(** A class that [Add] routes or ignores. *)
Definition recognised (c : Z) : Prop :=
  c = CommandI ∨ c = ActorI ∨ c = ObjectI ∨ c = TimeI ∨ c = PlaceI ∨ c = NoneI.

(** The words of class [c] in a batch, in arrival order. *)
Definition words_of (c : Z) (wc : list WordClass) : list string :=
  Word <$> filter (λ w, Class w = c) wc.

(** A slice after the words [l] were appended to it one by one. *)
Definition appended (s : StringSlice) (l : list string) : StringSlice :=
  match l with
  | [] => s
  | _ => Some (elems s ++ l)
  end.

(** The receiver after every pair of [wc] was routed to its list. *)
Definition routed (si : StructuredInput) (wc : list WordClass)
  : StructuredInput :=
  mkSI (UserId si) (FlexId si) (FlexIdType si) (Sentence si)
    (appended (Commands si) (words_of CommandI wc))
    (appended (Actors si) (words_of ActorI wc))
    (appended (Objects si) (words_of ObjectI wc))
    (appended (Times si) (words_of TimeI wc))
    (appended (Places si) (words_of PlaceI wc)).

(** The line that [String] writes for a category. *)
Definition category_line (name : string) (l : StringSlice) : string :=
  match elems l with
  | [] => ""
  | _ => name +:+ strings_Join (elems l) ", " +:+ NL
  end.

(** The receiver [si'] holds what [si] held and, appended to each list in
    arrival order, the words of the batch [wc] that have the list's class;
    the other fields are those of [si]. *)
Definition routes_into (si : StructuredInput) (wc : list WordClass)
    (si' : StructuredInput) : Prop :=
  elems (Commands si') = elems (Commands si) ++ words_of CommandI wc ∧
  elems (Actors si') = elems (Actors si) ++ words_of ActorI wc ∧
  elems (Objects si') = elems (Objects si) ++ words_of ObjectI wc ∧
  elems (Times si') = elems (Times si) ++ words_of TimeI wc ∧
  elems (Places si') = elems (Places si) ++ words_of PlaceI wc ∧
  UserId si' = UserId si ∧ FlexId si' = FlexId si ∧
  FlexIdType si' = FlexIdType si ∧ Sentence si' = Sentence si.

(** [c] occurs in [s]. *)
Fixpoint has_byte (c : ascii) (s : string) : bool :=
  match s with
  | EmptyString => false
  | String a s' => bool_decide (a = c) || has_byte c s'
  end.

(** [a] is nowhere in [s] immediately followed by [b]. *)
Fixpoint no_pair (a b : ascii) (s : string) : bool :=
  match s with
  | EmptyString => true
  | String c s' =>
      negb (bool_decide (c = a) && starts_with b s') && no_pair a b s'
  end.

(** An element that the codec carries through: no backslash, no two double
    quotes in a row, no carriage return followed by a line feed. *)
Definition plain (e : string) : Prop :=
  has_byte BS e = false ∧ no_pair DQ DQ e = true ∧ no_pair CR LF e = true.

(** Every double quote preceded by a backslash. *)
Fixpoint escape_quotes (e : string) : string :=
  match e with
  | EmptyString => ""
  | String c e' =>
      if bool_decide (c = DQ) then String BS (String DQ (escape_quotes e'))
      else String c (escape_quotes e')
  end.

(** Every double quote doubled. *)
Fixpoint double_quotes (e : string) : string :=
  match e with
  | EmptyString => ""
  | String c e' =>
      if bool_decide (c = DQ) then String DQ (String DQ (double_quotes e'))
      else String c (double_quotes e')
  end.

(** [e] between double quotes. *)
Definition in_quotes (e : string) : string := String DQ (e +:+ str1 DQ).

(** The state of the reader in front of the text [T]: [line] is what is left
    of the current line and [input] what is left in the reader. *)
Definition cur (line input T : string) : Prop :=
  T = line +:+ input ∧
  has_byte LF (drop_last line) = false ∧
  (last_byte line ≠ Some LF → input = "").

(** The record that the reader is given for the elements [l]. *)
Definition csv_text (l : list string) : string :=
  strings_Join ((λ e, in_quotes (double_quotes e)) <$> l) ",".

(** What follows the first field of the record. *)
Definition csv_tail (l : list string) : string :=
  match l with
  | [] => ""
  | _ => String COMMA (csv_text l)
  end.

(** ** The table of class names *)

Module datatypes.

(** [var String map[int]string] *)
Definition String : gmap Z string :=
  list_to_map
    [ (CommandI, "Command"); (ActorI, "Actor"); (ObjectI, "Object");
      (TimeI, "Time"); (PlaceI, "Place"); (NoneI, "None") ].

End datatypes.

(** ** Vocabulary of the further statements *)

(** A list of the receiver before and after a batch that brought it the words
    [ws]: untouched, nil included, when there is no word; not nil when there
    is one. *)
Definition kept_or_filled (old new : StringSlice) (ws : list string) : Prop :=
  (ws = [] → new = old) ∧ (ws ≠ [] → new ≠ None).

(** The number of bytes of [s] that are not a backslash. *)
Fixpoint non_backslashes (s : string) : nat :=
  match s with
  | EmptyString => 0
  | String a s' =>
      ((if bool_decide (a = BS) then 0 else 1) + non_backslashes s')%nat
  end.

(** Every backslash doubled and every double quote preceded by a backslash:
    the escaping that [Scan] undoes. *)
Fixpoint escape_element (e : string) : string :=
  match e with
  | EmptyString => ""
  | String c e' =>
      if bool_decide (c = BS) then String BS (String BS (escape_element e'))
      else if bool_decide (c = DQ)
      then String BS (String DQ (escape_element e'))
      else String c (escape_element e')
  end.

(** Every backslash and every double quote doubled. *)
Fixpoint double_both (e : string) : string :=
  match e with
  | EmptyString => ""
  | String c e' =>
      if bool_decide (c = BS) then String BS (String BS (double_both e'))
      else if bool_decide (c = DQ) then String DQ (String DQ (double_both e'))
      else String c (double_both e')
  end.

(** No double quote of [e] is followed by another with nothing or only
    backslashes between the two; with [armed] false, the same for a double
    quote in front of [e]. *)
Fixpoint quotes_apart (armed : bool) (e : string) : bool :=
  match e with
  | EmptyString => true
  | String c e' =>
      if bool_decide (c = BS) then quotes_apart armed e'
      else if bool_decide (c = DQ) then armed && quotes_apart false e'
      else quotes_apart true e'
  end.

(** An element that [Scan] reads back from its escaped text. *)
Definition readable (e : string) : Prop :=
  quotes_apart true e = true ∧ no_pair CR LF e = true.

(** The array text of the elements [l]: every element escaped and between
    double quotes, commas between the elements, the whole in braces. *)
Definition array_literal (l : list string) : string :=
  "{" +:+ strings_Join ((λ e, in_quotes (escape_element e)) <$> l) ","
      +:+ "}".

(** An element that can stand in an array text without quotes. *)
Definition bare (e : string) : Prop :=
  has_byte DQ e = false ∧ has_byte BS e = false ∧
  has_byte COMMA e = false ∧ has_byte LF e = false ∧ has_byte CR e = false.

(** The text stored for an element, byte by byte: three backslashes for a
    backslash, a backslash and a double quote for a double quote. *)
Fixpoint stored_text (e : string) : string :=
  match e with
  | EmptyString => ""
  | String c e' =>
      if bool_decide (c = BS)
      then String BS (String BS (String BS (stored_text e')))
      else if bool_decide (c = DQ)
      then String BS (String DQ (stored_text e'))
      else String c (stored_text e')
  end.

(** ** Authentication *)

(** The arithmetic of [int] and [int64] on a 64-bit platform: a result out of
    range wraps around. *)
Definition wrap64 (z : Z) : Z := (z + 2 ^ 63) `mod` 2 ^ 64 - 2 ^ 63.

(** [strconv.ErrSyntax] and [strconv.ErrRange] *)
Inductive num_error : Type :=
  | ErrSyntax
  | ErrRange.

(** The value of a decimal digit. *)
Definition digit_of (c : ascii) : option Z :=
  let n := Z.of_N (N_of_ascii c) in
  if bool_decide (48 ≤ n ≤ 57) then Some (n - 48) else None.

(** The loop of [strconv.ParseUint] for base 10 and 64 bits, with [n] the
    value of the digits read so far. *)
Fixpoint ParseUint_digits (s : string) (n : Z) : Z + num_error :=
  match s with
  | EmptyString => inl n
  | String c s' =>
      match digit_of c with
      | None => inr ErrSyntax
      | Some d =>
          if bool_decide ((2 ^ 64 - 1) `div` 10 + 1 ≤ n) then inr ErrRange
          else if bool_decide (2 ^ 64 - 1 < n * 10 + d) then inr ErrRange
          else ParseUint_digits s' (n * 10 + d)
      end
  end.

(** [strconv.Atoi(s)], which is [ParseInt(s, 10, 0)]: an optional sign, then
    decimal digits, at least one, whose value fits an [int]. *)
Definition strconv_Atoi (s : string) : Z + num_error :=
  match s with
  | EmptyString => inr ErrSyntax
  | String c s' =>
      let neg := bool_decide (c = "-"%char) in
      let digits := if bool_decide (c = "+"%char) || neg then s' else s in
      if bool_decide (digits = "") then inr ErrSyntax
      else
        match ParseUint_digits digits 0 with
        | inr e => inr e
        | inl un =>
            if negb neg && bool_decide (2 ^ 63 ≤ un) then inr ErrRange
            else if neg && bool_decide (2 ^ 63 < un) then inr ErrRange
            else inl (if neg then - un else un)
        end
  end.

(** The errors of [isAuthenticated]: the error of [Atoi] with the text it was
    given, and "negative REQUIRE_AUTH_IN_HOURS". *)
Inductive auth_error : Type :=
  | ErrAtoi (num : string) (e : num_error)
  | ErrNegativeHours.

(** What [isAuthenticated] uses of package [time]: [t.Add(d)] with [d] in
    nanoseconds, and [t.After(u)]. *)
Class TimeOps (Time : Type) : Type := {
  time_Add : Time → Z → Time;
  time_After : Time → Time → bool
}.

(** [time.Hour] *)
Definition time_Hour : Z := 3600000000000.

(** [type User struct]; [LastAuthenticated] is a pointer, nil when [None]. *)
Record User (Time : Type) : Type := mkUser {
  Id : Z;
  Email : string;
  Phone : string;
  LastAuthenticated : option Time
}.

Arguments mkUser {Time} _ _ _ _.
Arguments Id {Time} _.
Arguments Email {Time} _.
Arguments Phone {Time} _.
Arguments LastAuthenticated {Time} _.

(** [os.Getenv(key)] in the environment [env]: empty for a variable that is
    not set. *)
Definition os_Getenv (env : gmap string string) (key : string) : string :=
  default "" (env !! key).

Definition REQUIRE_AUTH_IN_HOURS : string := "REQUIRE_AUTH_IN_HOURS".

(** The warning that the variable is not set. *)
Inductive auth_log : Type :=
  | WarnDefaultHours.

(** How [isAuthenticated] ends: the panic of a nil pointer, or a return. *)
Inductive auth_outcome : Type :=
  | AuthPanics
  | AuthReturns (authenticated : bool) (err : option auth_error).

(** The hours that [isAuthenticated] reads from the variable, with what it
    logs, or the error it returns. *)
Definition auth_hours (env : gmap string string)
  : (Z * list auth_log) + auth_error :=
  let tmp := os_Getenv env REQUIRE_AUTH_IN_HOURS in
  if bool_decide (slen tmp > 0) then
    match strconv_Atoi tmp with
    | inr e => inr (ErrAtoi tmp e)
    | inl t =>
        if bool_decide (t < 0) then inr ErrNegativeHours else inl (t, [])
    end
  else inl (168, [WarnDefaultHours]).

(** The offset [time.Duration(-1*t) * time.Hour]. *)
Definition auth_offset (t : Z) : Z := wrap64 (wrap64 (-1 * t) * time_Hour).

(** [func (u *User) isAuthenticated() (bool, error)], in the environment
    [env] and at the time [now]: what is logged and how the call ends. *)
Definition isAuthenticated {Time : Type} `{TimeOps Time}
    (env : gmap string string) (now : Time) (u : User Time)
  : list auth_log * auth_outcome :=
  match auth_hours env with
  | inr e => ([], AuthReturns false (Some e))
  | inl (t, log) =>
      let oldTime := time_Add now (auth_offset t) in
      match LastAuthenticated u with
      | None => (log, AuthPanics)
      | Some last => (log, AuthReturns (time_After last oldTime) None)
      end
  end.

(** Every byte is a decimal digit. *)
Fixpoint all_digits (s : string) : bool :=
  match s with
  | EmptyString => true
  | String c s' =>
      match digit_of c with
      | Some _ => all_digits s'
      | None => false
      end
  end.

(** An optional sign and then at least one byte, all of them digits. *)
Definition decimal (s : string) : Prop :=
  match s with
  | EmptyString => False
  | String c s' =>
      if bool_decide (c = "+"%char ∨ c = "-"%char)
      then s' ≠ "" ∧ all_digits s' = true
      else all_digits s = true
  end.

(** Instants counted in nanoseconds, for the examples. *)
Global Instance nanoseconds : TimeOps Z := {|
  time_Add := Z.add;
  time_After := λ t u, bool_decide (t > u)
|}.

(** * Pronoun extraction *)

Lemma Pronouns_at_spec (w : string) : Pronouns_at w ≠ 0 ↔ w ∈ pronoun_set.
Proof.
  unfold Pronouns_at, Pronouns, pronoun_set. simpl.
  repeat (rewrite lookup_insert; case_decide;
          [subst; split; [intros _; set_solver | intros _; done] | ]).
  rewrite lookup_empty. simpl. split; [done|].
  intros Hin. exfalso.
  repeat (apply elem_of_cons in Hin as [-> | Hin]; [done|]).
  by apply elem_of_nil in Hin.
Qed.

Lemma collect_pronouns_filter (l : list string) (p : list string) :
  collect_pronouns (Some p) l = Some (p ++ filter (λ w, w ∈ pronoun_set) l).
Proof.
  revert p. induction l as [|w l IH]; intros p; simpl.
  - by rewrite app_nil_r.
  - rewrite filter_cons. case_bool_decide as Hw.
    + apply Pronouns_at_spec in Hw. rewrite decide_True by done.
      unfold append. simpl. rewrite IH. by rewrite <- app_assoc.
    + rewrite decide_False; [apply IH|].
      intros Hin. by apply Pronouns_at_spec in Hin.
Qed.

(** C7. [Pronouns] returns, in encounter order, the elements of Objects, then
    Actors, then Times, then Places that belong to the pronoun set; Commands
    is not read; the result is a slice that is not nil, also when nothing
    matches; on the example of the claim it is it, me, then, there. *)
Theorem Pronouns_extraction :
  (∀ si : StructuredInput,
     StructuredInput_Pronouns si =
       Some (filter (λ w, w ∈ pronoun_set)
               (elems (Objects si) ++ elems (Actors si) ++
                elems (Times si) ++ elems (Places si)))) ∧
  (∀ si : StructuredInput, StructuredInput_Pronouns si ≠ None) ∧
  (∀ uid fid ft sen cmds,
     StructuredInput_Pronouns
       (mkSI uid fid ft sen cmds (Some ["me"; "dog"]) (Some ["it"; "car"])
          (Some ["then"]) (Some ["there"]))
     = Some ["it"; "me"; "then"; "there"]).
Proof.
  assert (Hgen : ∀ si : StructuredInput,
     StructuredInput_Pronouns si =
       Some (filter (λ w, w ∈ pronoun_set)
               (elems (Objects si) ++ elems (Actors si) ++
                elems (Times si) ++ elems (Places si)))).
  { intros si. unfold StructuredInput_Pronouns.
    rewrite !collect_pronouns_filter. simpl.
    by rewrite !filter_app, <- !app_assoc. }
  split; [exact Hgen|]. split.
  - intros si. by rewrite Hgen.
  - intros. rewrite Hgen. reflexivity.
Qed.

(** * Ingestion *)

Lemma words_of_cons_eq (c : Z) (w : WordClass) (wc : list WordClass) :
  Class w = c → words_of c (w :: wc) = Word w :: words_of c wc.
Proof.
  intros H. unfold words_of. rewrite filter_cons, decide_True by done.
  reflexivity.
Qed.

Lemma words_of_cons_ne (c : Z) (w : WordClass) (wc : list WordClass) :
  Class w ≠ c → words_of c (w :: wc) = words_of c wc.
Proof.
  intros H. unfold words_of. by rewrite filter_cons, decide_False by done.
Qed.

Lemma appended_append (s : StringSlice) (x : string) (l : list string) :
  appended (append s x) l = appended s (x :: l).
Proof.
  unfold appended, append. destruct l as [|y l]; simpl; [done|].
  by rewrite <- app_assoc.
Qed.

Lemma elems_appended (s : StringSlice) (l : list string) :
  elems (appended s l) = elems s ++ l.
Proof. destruct l; simpl; [by rewrite app_nil_r | done]. Qed.

Lemma routed_routes_into (si : StructuredInput) (wc : list WordClass) :
  routes_into si wc (routed si wc).
Proof.
  unfold routes_into, routed; simpl. rewrite !elems_appended. tauto.
Qed.

Local Ltac class_cases H :=
  destruct H as [H|[H|[H|[H|[H|H]]]]].

Lemma Add_loop_recognised (pre : list WordClass) :
  ∀ (si : StructuredInput) (rest : list WordClass),
    Forall (λ w, recognised (Class w)) pre →
    Add_loop si (pre ++ rest) = Add_loop (routed si pre) rest.
Proof.
  induction pre as [|w pre IH]; intros si rest Hpre.
  - by destruct si.
  - apply Forall_cons in Hpre as [Hw Hpre]. simpl.
    class_cases Hw; rewrite Hw; simpl; rewrite IH by done; f_equal;
      unfold routed; simpl; rewrite ?appended_append;
      repeat first
        [ rewrite (words_of_cons_eq _ w) by exact Hw
        | rewrite (words_of_cons_ne _ w) by (rewrite Hw; done) ];
      reflexivity.
Qed.

Lemma Add_loop_unrecognised (si : StructuredInput) (w : WordClass)
    (post : list WordClass) :
  ¬ recognised (Class w) →
  Add_loop si (w :: post)
  = (si, [LogInvalidClass (Class w)], Some ErrInvalidClass).
Proof.
  intros Hw. simpl.
  repeat (case_bool_decide as Hc;
          [exfalso; apply Hw; unfold recognised; tauto | clear Hc]).
  reflexivity.
Qed.

(** C4. On the zero value, the batch go/Command, him/Actor, car/Object,
    noon/Time, park/Place, ignored/None succeeds and leaves one word in each of
    the five lists, the ignored word in none.  For every receiver and every
    non-empty batch of recognised classes, [Add] succeeds, every list receives
    the words of its class in arrival order with duplicates kept, and nothing
    else changes. *)
Theorem Add_classification_routing :
  StructuredInput_Add zeroSI
    [mkWC "go" CommandI; mkWC "him" ActorI; mkWC "car" ObjectI;
     mkWC "noon" TimeI; mkWC "park" PlaceI; mkWC "ignored" NoneI]
  = (mkSI 0 "" 0 "" (Some ["go"]) (Some ["him"]) (Some ["car"])
       (Some ["noon"]) (Some ["park"]), [], None) ∧
  (∀ (si : StructuredInput) (wc : list WordClass),
     wc ≠ [] →
     Forall (λ w, recognised (Class w)) wc →
     ∃ si', StructuredInput_Add si wc = (si', [], None) ∧
            routes_into si wc si').
Proof.
  split; [reflexivity|].
  intros si wc Hne Hrec. exists (routed si wc). split.
  - unfold StructuredInput_Add. destruct wc as [|w wc]; [done|].
    rewrite bool_decide_false by done.
    pose proof (Add_loop_recognised (w :: wc) si [] Hrec) as E.
    by rewrite app_nil_r in E.
  - apply routed_routes_into.
Qed.

(** C5. [Add] of an empty batch returns the error of the empty argument and
    the receiver is what it was. *)
Theorem Add_empty_batch (si : StructuredInput) :
  StructuredInput_Add si [] = (si, [], Some ErrInvalidOddParameter).
Proof. reflexivity. Qed.

(** C6. When the pairs [pre] have recognised classes and the class of [w] is
    none of the six, [Add] of [pre], then [w], then [post] returns the error of
    the invalid class; the receiver holds the words of [pre], routed, and
    nothing of [post].  On the zero value, foo/Command then bar of an
    unrecognised class fails and Commands holds foo. *)
Theorem Add_fail_fast_no_rollback :
  (∀ c : Z, ¬ recognised c →
     StructuredInput_Add zeroSI [mkWC "foo" CommandI; mkWC "bar" c]
     = (mkSI 0 "" 0 "" (Some ["foo"]) None None None None,
        [LogInvalidClass c], Some ErrInvalidClass)) ∧
  (∀ (si : StructuredInput) (pre : list WordClass) (w : WordClass)
     (post : list WordClass),
     Forall (λ w, recognised (Class w)) pre →
     ¬ recognised (Class w) →
     ∃ si', StructuredInput_Add si (pre ++ w :: post)
            = (si', [LogInvalidClass (Class w)], Some ErrInvalidClass) ∧
            routes_into si pre si').
Proof.
  assert (Hgen : ∀ (si : StructuredInput) (pre : list WordClass)
     (w : WordClass) (post : list WordClass),
     Forall (λ w, recognised (Class w)) pre →
     ¬ recognised (Class w) →
     StructuredInput_Add si (pre ++ w :: post)
     = (routed si pre, [LogInvalidClass (Class w)], Some ErrInvalidClass)).
  { intros si pre w post Hpre Hw. unfold StructuredInput_Add.
    rewrite bool_decide_false by (rewrite length_app; simpl; lia).
    rewrite Add_loop_recognised by done. by apply Add_loop_unrecognised. }
  split.
  - intros c Hc.
    apply (Hgen zeroSI [mkWC "foo" CommandI] (mkWC "bar" c) []); [|done].
    repeat constructor.
  - intros si pre w post Hpre Hw. exists (routed si pre).
    split; [by apply Hgen | apply routed_routes_into].
Qed.

(** * The last element *)

(** C10. [Last] returns the empty string on an empty slice, nil or not, and
    the final element on a slice that has one. *)
Theorem Last_total :
  StringSlice_Last None = Some "" ∧
  StringSlice_Last (Some []) = Some "" ∧
  (∀ (l : list string) (x : string),
     StringSlice_Last (Some (l ++ [x])) = Some x).
Proof.
  split; [reflexivity|]. split; [reflexivity|].
  intros l x. unfold StringSlice_Last, len. simpl.
  rewrite bool_decide_false by (rewrite length_app; simpl; lia).
  rewrite length_app. simpl.
  replace (Z.to_nat (Z.of_nat (length l + 1) - 1)) with (length l + 0)%nat
    by lia.
  by rewrite lookup_app_r, Nat.add_0_r, Nat.sub_diag by lia.
Qed.

(** * Strings *)

Lemma sapp_cons (a : ascii) (s t : string) :
  String a s +:+ t = String a (s +:+ t).
Proof. reflexivity. Qed.

Lemma sapp_nil_l (t : string) : "" +:+ t = t.
Proof. reflexivity. Qed.

Lemma sapp_nil_r (s : string) : s +:+ "" = s.
Proof. induction s as [|a s IH]; [done|]. by rewrite sapp_cons, IH. Qed.

Lemma sapp_assoc (s t u : string) : (s +:+ t) +:+ u = s +:+ t +:+ u.
Proof. induction s as [|a s IH]; [done|]. by rewrite !sapp_cons, IH. Qed.

Lemma slength_app (s t : string) :
  String.length (s +:+ t) = (String.length s + String.length t)%nat.
Proof. induction s as [|a s IH]; [done|]. rewrite sapp_cons. simpl. lia. Qed.

Lemma last_byte_is_Some (a : ascii) (s : string) :
  is_Some (last_byte (String a s)).
Proof.
  revert a. induction s as [|b s IH]; intros a; [by eexists|].
  change (last_byte (String a (String b s))) with (last_byte (String b s)).
  apply IH.
Qed.

Lemma last_byte_None (s : string) : last_byte s = None ↔ s = "".
Proof.
  split; [|by intros ->]. destruct s as [|a s]; [done|].
  intros E. destruct (last_byte_is_Some a s) as [c Hc]. congruence.
Qed.

Lemma last_byte_cons (a : ascii) (s : string) :
  last_byte (String a s) =
    match last_byte s with Some c => Some c | None => Some a end.
Proof.
  destruct s as [|b s]; [done|].
  change (last_byte (String a (String b s))) with (last_byte (String b s)).
  by destruct (last_byte_is_Some b s) as [c ->].
Qed.

Lemma last_byte_app (s t : string) :
  last_byte (s +:+ t) =
    match last_byte t with Some c => Some c | None => last_byte s end.
Proof.
  induction s as [|a s IH].
  - rewrite sapp_nil_l. by destruct (last_byte t).
  - rewrite sapp_cons, !last_byte_cons, IH. by destruct (last_byte t).
Qed.

Lemma drop_last_cons (a b : ascii) (s : string) :
  drop_last (String a (String b s)) = String a (drop_last (String b s)).
Proof. reflexivity. Qed.

Lemma drop_last_snoc (s : string) (c : ascii) :
  last_byte s = Some c → drop_last s +:+ str1 c = s.
Proof.
  induction s as [|a s IH]; [done|]. destruct s as [|b s].
  - simpl. by intros [= ->].
  - rewrite last_byte_cons, drop_last_cons, sapp_cons.
    destruct (last_byte (String b s)) as [d|] eqn:E.
    + intros [= ->]. by rewrite IH.
    + by apply last_byte_None in E.
Qed.

Lemma drop_last_app_str1 (s : string) (c : ascii) :
  drop_last (s +:+ str1 c) = s.
Proof.
  induction s as [|a s IH]; [done|]. rewrite sapp_cons.
  destruct s as [|b s]; [done|].
  rewrite sapp_cons, drop_last_cons, <- sapp_cons. by rewrite IH.
Qed.

Lemma substring_drop_last (s : string) :
  String.substring 0 (String.length s - 1) s = drop_last s.
Proof.
  induction s as [|a s IH]; [done|]. destruct s as [|b s]; [done|].
  rewrite drop_last_cons, <- IH. simpl. by rewrite Nat.sub_0_r.
Qed.

Lemma substring_prefix (s t : string) :
  String.substring 0 (String.length s) (s +:+ t) = s.
Proof.
  induction s as [|a s IH]; [by destruct t|].
  rewrite sapp_cons. simpl. by rewrite IH.
Qed.

(** [s[:len(s)-1]] of a non-empty string. *)
Lemma slice_str_drop_last (s : string) :
  s ≠ "" → slice_str s 0 (slen s - 1) = Some (drop_last s).
Proof.
  intros Hs. unfold slice_str, slen.
  assert (String.length s ≠ 0)%nat by (by destruct s).
  rewrite bool_decide_true by lia.
  f_equal. rewrite <- substring_drop_last. f_equal. lia.
Qed.

(** [s[1:len(s)-1]] of a string of at least two bytes. *)
Lemma slice_str_middle (a b : ascii) (body : string) :
  slice_str (String a (body +:+ str1 b)) 1
    (slen (String a (body +:+ str1 b)) - 1) = Some body.
Proof.
  unfold slice_str, slen. simpl. rewrite slength_app. simpl.
  rewrite bool_decide_true by lia. f_equal.
  replace (Z.to_nat _) with (String.length body) by lia.
  change (Z.to_nat 1) with 1%nat. simpl. apply substring_prefix.
Qed.

(** * Rendering *)

Lemma add_line_category (s name : string) (l : StringSlice) :
  add_line s name l = s +:+ category_line name l.
Proof.
  unfold add_line, category_line, len.
  destruct (elems l) as [|x xs] eqn:E; simpl.
  - by rewrite sapp_nil_r.
  - reflexivity.
Qed.

Lemma last_byte_category (name : string) (l : StringSlice) :
  last_byte (category_line name l) = None ∨
  last_byte (category_line name l) = Some LF.
Proof.
  unfold category_line. destruct (elems l); [by left|right].
  by rewrite !last_byte_app.
Qed.

(** C8. [String] returns a line feed followed by one line for each category
    that has elements, in the order Command, Actors, Objects, Times, Places;
    a line is the category's label, the elements joined by a comma and a
    space, and a line feed; a category without elements adds nothing.  When
    Actors holds me and the other lists are empty, the text is a line feed,
    the line of Actors, and nothing more. *)
Theorem String_rendering :
  (∀ si : StructuredInput,
     StructuredInput_String si =
       Some (NL +:+ category_line "Command: " (Commands si)
                +:+ category_line "Actors: " (Actors si)
                +:+ category_line "Objects: " (Objects si)
                +:+ category_line "Times: " (Times si)
                +:+ category_line "Places: " (Places si))) ∧
  (∀ (name : string) (x y : string) (rest : list string),
     category_line name (Some (x :: y :: rest)) =
       name +:+ x +:+ ", " +:+ strings_Join (y :: rest) ", " +:+ NL) ∧
  (∀ (name : string) (x : string),
     category_line name (Some [x]) = name +:+ x +:+ NL) ∧
  (∀ name : string,
     category_line name None = "" ∧ category_line name (Some []) = "") ∧
  (∀ uid fid ft sen (c o t p : StringSlice),
     elems c = [] → elems o = [] → elems t = [] → elems p = [] →
     StructuredInput_String (mkSI uid fid ft sen c (Some ["me"]) o t p)
     = Some (NL +:+ "Actors: me" +:+ NL)).
Proof.
  assert (Hgen : ∀ si : StructuredInput,
     StructuredInput_String si =
       Some (NL +:+ category_line "Command: " (Commands si)
                +:+ category_line "Actors: " (Actors si)
                +:+ category_line "Objects: " (Objects si)
                +:+ category_line "Times: " (Times si)
                +:+ category_line "Places: " (Places si))).
  { intros si. unfold StructuredInput_String.
    rewrite !add_line_category, !sapp_assoc.
    set (s := NL +:+ _).
    assert (Hlast : last_byte s = Some LF).
    { unfold s. rewrite !last_byte_app.
      destruct (last_byte_category "Command: " (Commands si)) as [-> | ->],
        (last_byte_category "Actors: " (Actors si)) as [-> | ->],
        (last_byte_category "Objects: " (Objects si)) as [-> | ->],
        (last_byte_category "Times: " (Times si)) as [-> | ->],
        (last_byte_category "Places: " (Places si)) as [-> | ->];
        reflexivity. }
    rewrite slice_str_drop_last by (intros E; by rewrite E in Hlast).
    f_equal. by apply drop_last_snoc. }
  split; [exact Hgen|].
  split; [intros; unfold category_line; simpl; by rewrite !sapp_assoc|].
  split; [reflexivity|]. split; [done|].
  intros uid fid ft sen c o t p Hc Ho Ht Hp. rewrite Hgen. simpl.
  unfold category_line. rewrite Hc, Ho, Ht, Hp. reflexivity.
Qed.

(** * The codec *)

Lemma Value_loop_spec (l2 : list string) :
  ∀ l1 : list string,
    Value_loop (length l2) (length l1) (l1 ++ l2)
    = l1 ++ (quote_elem <$> l2).
Proof.
  induction l2 as [|x l2 IH]; intros l1; [done|]. simpl.
  rewrite list_lookup_middle by done.
  rewrite insert_app_r_alt, Nat.sub_diag by done. simpl.
  specialize (IH (l1 ++ [quote_elem x])).
  rewrite length_app, <- app_assoc in IH. simpl in IH.
  rewrite Nat.add_1_r in IH. rewrite IH. by rewrite <- app_assoc.
Qed.

Lemma Value_after_fmap (l : list string) :
  Value_after (Some l) = Some (quote_elem <$> l).
Proof.
  unfold Value_after, StringSlice_Value. simpl. f_equal.
  apply (Value_loop_spec l []).
Qed.

Lemma Value_text_fmap (l : StringSlice) :
  Value_text l
  = "{" +:+ strings_Join (quote_elem <$> elems l) "," +:+ "}".
Proof.
  destruct l as [l|]; [|done].
  pose proof (Value_loop_spec l []) as E. simpl in E.
  unfold Value_text, StringSlice_Value. simpl. by rewrite E.
Qed.

Lemma prefix_str1 (c : ascii) (s : string) :
  String.prefix (str1 c) s = starts_with c s.
Proof.
  destruct s as [|a s]; [done|]. simpl.
  destruct (ascii_dec c a) as [->|Hne].
  - rewrite bool_decide_true by done. by destruct s.
  - by rewrite bool_decide_false by congruence.
Qed.

(** Replacing a text whose first byte does not occur changes nothing. *)
Lemma Replace_absent (c : ascii) (old new s : string) :
  has_byte c s = false → Replace_from 0 s (String c old) new = s.
Proof.
  induction s as [|a s IH]; [done|]. simpl.
  intros [Ha Hs]%orb_false_elim. apply bool_decide_eq_false in Ha.
  destruct (ascii_dec c a) as [->|_]; [done|]. by rewrite IH.
Qed.

Lemma Replace_quote (e : string) :
  strings_Replace e (str1 DQ) (String BS (str1 DQ)) = escape_quotes e.
Proof.
  unfold strings_Replace. induction e as [|a e IH]; [done|].
  cbn [Replace_from escape_quotes]. rewrite prefix_str1. simpl.
  case_bool_decide; by rewrite IH.
Qed.

Lemma quote_elem_plain (e : string) :
  has_byte BS e = false → quote_elem e = in_quotes (escape_quotes e).
Proof.
  intros He. unfold quote_elem, strings_Replace at 2.
  unfold str1 at 2. by rewrite Replace_absent, Replace_quote.
Qed.

(** ** The regular expression on the text of plain elements *)

Lemma match_pairs_tail_no_backslash (s : string) :
  starts_with BS s = false → match_pairs_tail s = None.
Proof.
  destruct s as [|a [|b s]]; [done..|]. simpl. intros Ha.
  by rewrite Ha.
Qed.

Lemma ReplaceAll_no_match (c : ascii) (rest : string) :
  starts_with BS rest = false →
  ReplaceAllString_from 0 (String c rest)
  = String c (ReplaceAllString_from 0 rest).
Proof.
  intros Hr. cbn [ReplaceAllString_from quoteEscapeRegex_match].
  rewrite match_pairs_tail_no_backslash by done. by case_bool_decide.
Qed.

Lemma ReplaceAll_match (c : ascii) (rest : string) :
  c ≠ BS →
  ReplaceAllString_from 0 (String c (String BS (String DQ rest)))
  = String c (String DQ (String DQ (ReplaceAllString_from 0 rest))).
Proof.
  intros Hc. cbn [ReplaceAllString_from quoteEscapeRegex_match].
  rewrite bool_decide_false by done. reflexivity.
Qed.

Lemma starts_with_escape (e rest : string) :
  has_byte BS e = false → starts_with DQ e = false →
  starts_with BS rest = false →
  starts_with BS (escape_quotes e +:+ rest) = false.
Proof.
  destruct e as [|a e]; [done|]. simpl.
  intros [Ha _]%orb_false_elim Hq _. by rewrite Hq.
Qed.

Lemma ReplaceAll_elem (n : nat) :
  ∀ (e : string) (c : ascii) (rest : string),
    (String.length e ≤ n)%nat → c ≠ BS →
    has_byte BS e = false → no_pair DQ DQ e = true →
    starts_with BS rest = false →
    ReplaceAllString_from 0 (String c (escape_quotes e +:+ rest))
    = String c (double_quotes e +:+ ReplaceAllString_from 0 rest).
Proof.
  induction n as [n IH] using lt_wf_ind.
  intros e c rest Hn Hc Hbs Hqq Hrest.
  destruct e as [|x e]; [by apply ReplaceAll_no_match|].
  simpl in Hn, Hbs, Hqq.
  apply orb_false_elim in Hbs as [Hx Hbs].
  apply bool_decide_eq_false in Hx.
  apply andb_true_iff in Hqq as [Hfirst Hqq].
  cbn [escape_quotes double_quotes]. case_bool_decide as Hxq.
  - (* a double quote: the match begins at [c] *)
    subst x. simpl in Hfirst. apply negb_true_iff in Hfirst.
    rewrite !sapp_cons, ReplaceAll_match by done. do 3 f_equal.
    destruct e as [|y e]; [done|].
    simpl in Hfirst, Hbs, Hqq.
    apply orb_false_elim in Hbs as [Hy Hbs].
    apply bool_decide_eq_false in Hy.
    apply andb_true_iff in Hqq as [_ Hqq].
    cbn [escape_quotes double_quotes]. rewrite Hfirst, !sapp_cons.
    apply (IH (String.length e)); [simpl in Hn; lia|done..].
  - (* another byte: no match at [c] *)
    rewrite !sapp_cons, ReplaceAll_no_match by (simpl; by case_bool_decide).
    f_equal. apply (IH (String.length e)); [lia|done..].
Qed.

Lemma in_quotes_app (e tail : string) :
  in_quotes e +:+ tail = String DQ (e +:+ String DQ tail).
Proof. unfold in_quotes. by rewrite sapp_cons, sapp_assoc. Qed.

Lemma strings_Join_cons2 (x y : string) (l : list string) (sep : string) :
  strings_Join (x :: y :: l) sep = x +:+ sep +:+ strings_Join (y :: l) sep.
Proof. reflexivity. Qed.

Lemma strings_Join_cons_fmap (f : string → string) (x y : string)
    (l : list string) (sep : string) :
  strings_Join (x :: (f <$> y :: l)) sep
  = x +:+ sep +:+ strings_Join (f <$> y :: l) sep.
Proof. reflexivity. Qed.

Lemma ReplaceAll_list (l : list string) (tail : string) :
  Forall plain l → starts_with BS tail = false →
  ReplaceAllString_from 0
    (strings_Join ((λ e, in_quotes (escape_quotes e)) <$> l) "," +:+ tail)
  = strings_Join ((λ e, in_quotes (double_quotes e)) <$> l) ","
    +:+ ReplaceAllString_from 0 tail.
Proof.
  intros Hl Htail. induction Hl as [|e l [Hbs [Hqq _]] Hl IH]; [done|].
  destruct l as [|e2 l].
  - cbn [fmap list_fmap strings_Join]. rewrite !in_quotes_app.
    rewrite (ReplaceAll_elem (String.length e)) by done.
    by rewrite ReplaceAll_no_match.
  - rewrite (fmap_cons (λ e, in_quotes (escape_quotes e)) e),
      (fmap_cons (λ e, in_quotes (double_quotes e)) e).
    rewrite !strings_Join_cons_fmap, !sapp_assoc, !in_quotes_app.
    rewrite (ReplaceAll_elem (String.length e)) by done.
    rewrite ReplaceAll_no_match by done.
    change ("," +:+ ?s) with (String COMMA s).
    rewrite ReplaceAll_no_match; [by rewrite IH|].
    destruct l; [done|]. by rewrite fmap_cons, strings_Join_cons_fmap.
Qed.

(** ** Bytes of a text *)

Lemma has_byte_app (c : ascii) (s t : string) :
  has_byte c (s +:+ t) = has_byte c s || has_byte c t.
Proof.
  induction s as [|a s IH]; [done|].
  rewrite sapp_cons. simpl. by rewrite IH, orb_assoc.
Qed.

Lemma has_byte_double_quotes (c : ascii) (e : string) :
  c ≠ DQ → has_byte c (double_quotes e) = has_byte c e.
Proof.
  intros Hc. induction e as [|a e IH]; [done|]. simpl.
  case_bool_decide as Ha; simpl; rewrite IH; [|done].
  subst a. by rewrite !bool_decide_false by done.
Qed.

Lemma has_byte_last (c : ascii) (s : string) :
  last_byte s = Some c → has_byte c s = true.
Proof.
  intros Hl. rewrite <- (drop_last_snoc s c Hl), has_byte_app. simpl.
  rewrite bool_decide_true by done. by rewrite orb_true_r.
Qed.

Lemma has_byte_drop_last (c : ascii) (s : string) :
  has_byte c s = false → has_byte c (drop_last s) = false.
Proof.
  destruct (last_byte s) as [d|] eqn:E.
  - rewrite <- (drop_last_snoc s d E) at 1. rewrite has_byte_app.
    by intros [? _]%orb_false_elim.
  - apply last_byte_None in E. by subst.
Qed.

Lemma drop_last_app (s t : string) :
  t ≠ "" → drop_last (s +:+ t) = s +:+ drop_last t.
Proof.
  intros Ht. destruct (last_byte t) as [d|] eqn:E.
  - rewrite <- (drop_last_snoc t d E) at 1.
    by rewrite <- sapp_assoc, drop_last_app_str1.
  - by apply last_byte_None in E.
Qed.

Lemma no_pair_app_r (a b : ascii) (s t : string) :
  no_pair a b (s +:+ t) = true → no_pair a b t = true.
Proof.
  induction s as [|c s IH]; [done|]. rewrite sapp_cons. simpl.
  intros [_ H]%andb_true_iff. by apply IH.
Qed.

Lemma no_pair_found (a b : ascii) (s t : string) :
  no_pair a b (s +:+ String a (String b t)) = false.
Proof.
  induction s as [|c s IH].
  - rewrite sapp_nil_l. simpl. by rewrite !bool_decide_true by done.
  - rewrite sapp_cons. simpl. rewrite IH. apply andb_false_r.
Qed.

(** ** Lines *)

Lemma take_line_app (s line rest : string) :
  take_line s = (line, rest) → s = line +:+ rest.
Proof.
  revert line rest. induction s as [|a s IH]; intros line rest; simpl.
  - by intros [= <- <-].
  - case_bool_decide as Ha.
    + intros [= <- <-]. by subst a.
    + destruct (take_line s) as [l r]. intros [= <- <-].
      by rewrite sapp_cons, <- IH.
Qed.

Lemma take_line_shape (s line rest : string) :
  take_line s = (line, rest) →
  (has_byte LF line = false ∧ rest = "") ∨
  (∃ l0, line = l0 +:+ NL ∧ has_byte LF l0 = false).
Proof.
  revert line rest. induction s as [|a s IH]; intros line rest; simpl.
  - intros [= <- <-]. by left.
  - case_bool_decide as Ha.
    + intros [= <- <-]. right. by exists "".
    + destruct (take_line s) as [l r]. intros [= <- <-].
      destruct (IH l r eq_refl) as [[Hl ->] | [l0 [-> Hl0]]].
      * left. simpl. by rewrite bool_decide_false, Hl by done.
      * right. exists (String a l0). split; [done|]. simpl.
        by rewrite bool_decide_false, Hl0 by done.
Qed.

Lemma readLine_cur (T : string) :
  T ≠ "" → no_pair CR LF T = true → last_byte T ≠ Some CR →
  ∃ line input, readLine T = (line, input, false) ∧ cur line input T.
Proof.
  intros HT Hcrlf Hcr. unfold readLine.
  destruct (take_line T) as [line rest] eqn:Etl.
  pose proof (take_line_app _ _ _ Etl) as Happ.
  pose proof (take_line_shape _ _ _ Etl) as Hshape.
  assert (Hline : line ≠ "").
  { intros ->. destruct Hshape as [[_ ->] | [l0 [Hl0 _]]]; [done|].
    by destruct l0. }
  assert (H1 : ¬ (last_byte line ≠ Some LF ∧ last_byte line = Some CR)).
  { intros [Hnl Hlast].
    destruct Hshape as [[_ ->] | [l0 [-> _]]].
    - rewrite sapp_nil_r in Happ. by subst.
    - by rewrite last_byte_app in Hnl. }
  assert (H2 : ¬ (last_byte line = Some LF ∧
                  last_byte (drop_last line) = Some CR)).
  { intros [Hnl Hlast].
    destruct Hshape as [[Hno _] | [l0 [-> _]]].
    - apply has_byte_last in Hnl. congruence.
    - unfold NL in Hlast. rewrite drop_last_app_str1 in Hlast.
      apply drop_last_snoc in Hlast. rewrite <- Hlast in Happ.
      rewrite Happ, !sapp_assoc in Hcrlf. unfold NL, str1 in Hcrlf.
      rewrite !sapp_cons, !sapp_nil_l in Hcrlf.
      by rewrite no_pair_found in Hcrlf. }
  rewrite (bool_decide_false _ Hline), (bool_decide_false _ H1),
    (bool_decide_false _ H2).
  exists line, rest. split; [done|]. split; [done|]. split.
  - destruct Hshape as [[Hno _] | [l0 [-> Hl0]]].
    + by apply has_byte_drop_last.
    + unfold NL. by rewrite drop_last_app_str1.
  - intros Hnl. destruct Hshape as [[_ ->] | [l0 [-> _]]]; [done|].
    by rewrite last_byte_app in Hnl.
Qed.

Lemma cur_drop (s t input T : string) :
  last_byte s ≠ Some LF → cur (s +:+ t) input T → cur t input (t +:+ input).
Proof.
  intros Hs (_ & Hlf & Hend). split; [done|]. split.
  - destruct (decide (t = "")) as [->|Ht]; [done|].
    rewrite drop_last_app, has_byte_app in Hlf by done.
    by apply orb_false_elim in Hlf as [_ ?].
  - intros Hnl. apply Hend. rewrite last_byte_app.
    destruct (last_byte t); done.
Qed.

(** ** Searching a byte *)

Lemma IndexByte_None (s : string) (c : ascii) :
  IndexByte s c = None → has_byte c s = false.
Proof.
  induction s as [|a s IH]; [done|]. simpl. case_bool_decide; [done|].
  destruct (IndexByte s c); [done|]. intros _. by rewrite IH.
Qed.

Lemma IndexByte_Some (s : string) (c : ascii) (i : nat) :
  IndexByte s c = Some i →
  s = take_str i s +:+ String c (drop_str (i + 1) s) ∧
  has_byte c (take_str i s) = false.
Proof.
  revert i. induction s as [|a s IH]; intros i; [done|]. simpl.
  case_bool_decide as Ha.
  - intros [= <-]. subst a. simpl. by destruct s.
  - destruct (IndexByte s c) as [j|]; [|done]. intros [= <-].
    destruct (IH j eq_refl) as [Hs Hno]. simpl.
    rewrite sapp_cons, <- Hs, bool_decide_false, Hno by done. done.
Qed.

(** ** A quoted field *)

Lemma double_quotes_split_line (s : string) :
  ∀ (e X tail : string),
    has_byte DQ s = false →
    s +:+ X = double_quotes e +:+ String DQ tail →
    ∃ e', e = s +:+ e' ∧ X = double_quotes e' +:+ String DQ tail.
Proof.
  induction s as [|a s IH]; intros e X tail Hs HX.
  - by exists e.
  - simpl in Hs. apply orb_false_elim in Hs as [Ha Hs].
    apply bool_decide_eq_false in Ha.
    destruct e as [|c e].
    + rewrite sapp_cons in HX. cbn [double_quotes] in HX.
      rewrite sapp_nil_l in HX. by simplify_eq.
    + rewrite sapp_cons in HX. cbn [double_quotes] in HX.
      case_bool_decide as Hc; rewrite !sapp_cons in HX; simplify_eq.
      destruct (IH e X tail Hs) as [e' [-> HX']]; [done|]. by exists e'.
Qed.

Lemma double_quotes_split_quote (e X tail : string) :
  String DQ X = double_quotes e +:+ String DQ tail →
  (e = "" ∧ X = tail) ∨
  (∃ e', e = String DQ e' ∧
         X = String DQ (double_quotes e' +:+ String DQ tail)).
Proof.
  destruct e as [|c e]; cbn [double_quotes].
  - rewrite sapp_nil_l. intros [= ->]. by left.
  - case_bool_decide as Hc; rewrite !sapp_cons; intros [= HX]; [|done].
    subst. right. by exists e.
Qed.

(** The loop of a quoted field in front of the doubled text of [e], its
    closing quote and [tail], where [tail] is empty or begins with a comma:
    the field read is [e] after what [buf] held; the record ends with it when
    [tail] is empty, and the next field is parsed otherwise. *)
Lemma quotedField_elem (n : nat) :
  ∀ (e line input buf : string) (fields : list string) (fuel : nat)
    (tail : string) (r : option csv_result),
    (String.length e ≤ n)%nat →
    cur line input (double_quotes e +:+ String DQ tail) →
    no_pair CR LF (double_quotes e +:+ String DQ tail) = true →
    last_byte tail ≠ Some CR →
    (String.length line + String.length input < fuel)%nat →
    ((tail = "" ∧ r = Some (Some (fields ++ [buf +:+ e]), None)) ∨
     (∃ T2, tail = String COMMA T2 ∧
        ∀ line2 input2 fuel2,
          cur line2 input2 T2 →
          (String.length line2 + String.length input2 < fuel2)%nat →
          parseField fuel2 line2 input2 (fields ++ [buf +:+ e]) = r)) →
    quotedField fuel line input buf fields = r.
Proof.
  induction n as [n IH] using lt_wf_ind.
  intros e line input buf fields fuel tail r Hn Hcur Hcrlf Hcr Hfuel Hk.
  destruct fuel as [|fuel]; [lia|]. cbn [quotedField].
  pose proof Hcur as (HT & Hlf & Hend).
  destruct (IndexByte line DQ) as [i|] eqn:Ei.
  - (* the next quote of the line *)
    apply IndexByte_Some in Ei as [Hline Hpre].
    set (pre := take_str i line) in *.
    set (post := drop_str (i + 1) line) in *.
    rewrite Hline, sapp_assoc, sapp_cons in HT.
    symmetry in HT.
    destruct (double_quotes_split_line pre e _ tail Hpre HT) as [e' [-> HX]].
    assert (Hpost : cur post input (post +:+ input)).
    { apply (cur_drop (pre +:+ str1 DQ) post input
               (double_quotes (pre +:+ e') +:+ String DQ tail)).
      - by rewrite last_byte_app.
      - rewrite sapp_assoc. unfold str1.
        by rewrite sapp_cons, sapp_nil_l, <- Hline. }
    assert (Hlen : (String.length line =
                    String.length pre + S (String.length post))%nat).
    { rewrite Hline at 1. by rewrite slength_app. }
    destruct (double_quotes_split_quote e' _ tail HX)
      as [[-> Htail] | [e'' [-> Htail]]].
    + (* the closing quote *)
      rewrite sapp_nil_r in *.
      destruct Hk as [[-> ->] | [T2 [-> Hk]]].
      * destruct post as [|? ?]; [|done]. reflexivity.
      * destruct post as [|c post'].
        { rewrite sapp_nil_l in Htail. destruct Hpost as (_ & _ & Hin).
          rewrite Hin in Htail by done. done. }
        rewrite sapp_cons in Htail. injection Htail as -> Htail.
        cbn [starts_with]. rewrite bool_decide_false by done.
        rewrite bool_decide_true by done. cbn [drop_str].
        apply Hk.
        -- rewrite <- Htail.
           by eapply (cur_drop (str1 COMMA) post'); [|exact Hpost].
        -- simpl in Hlen. lia.
    + (* a doubled quote *)
      destruct post as [|c post'].
      { rewrite sapp_nil_l in Htail. destruct Hpost as (_ & _ & Hin).
        rewrite Hin in Htail by done. done. }
      rewrite sapp_cons in Htail. injection Htail as -> Htail.
      cbn [starts_with]. rewrite bool_decide_true by done. cbn [drop_str].
      apply (IH (String.length e'') ltac:(
               rewrite slength_app in Hn; simpl in Hn; lia) e''
               post' input _ fields fuel tail r).
      * lia.
      * rewrite <- Htail.
        by eapply (cur_drop (str1 DQ) post'); [|exact Hpost].
      * rewrite HX in HT. rewrite <- HT in Hcrlf.
        apply no_pair_app_r in Hcrlf.
        by apply (no_pair_app_r _ _ (String DQ (str1 DQ))) in Hcrlf.
      * done.
      * simpl in Hlen. lia.
      * rewrite !sapp_assoc. destruct Hk as [? | [T2 [-> Hk]]]; [by left|].
        right. by exists T2.
  - (* no quote left in the line *)
    apply IndexByte_None in Ei.
    symmetry in HT.
    destruct (double_quotes_split_line line e _ tail Ei HT) as [e' [-> HX]].
    assert (Hline : line ≠ "").
    { intros ->. rewrite Hend in HX by done. by destruct (double_quotes e'). }
    rewrite bool_decide_true by (destruct line; [done|simpl; lia]).
    assert (Hin : input ≠ "").
    { rewrite HX. by destruct (double_quotes e'). }
    assert (Hcrlf' : no_pair CR LF input = true).
    { rewrite <- HT in Hcrlf. by apply no_pair_app_r in Hcrlf. }
    assert (Hcr' : last_byte input ≠ Some CR).
    { rewrite HX, last_byte_app, last_byte_cons.
      by destruct (last_byte tail). }
    destruct (readLine_cur input Hin Hcrlf' Hcr')
      as (line2 & input2 & -> & Hcur2).
    assert (Hlen2 : (String.length line2 + String.length input2
                     = String.length input)%nat).
    { destruct Hcur2 as (-> & _). by rewrite slength_app. }
    apply (IH (String.length e') ltac:(
             rewrite slength_app in Hn; destruct line; [done|];
             simpl in Hn; lia) e' line2 input2 _ fields fuel tail r).
    * lia.
    * by rewrite <- HX.
    * by rewrite <- HX.
    * done.
    * destruct line; [done|]. simpl in Hfuel. lia.
    * rewrite !sapp_assoc. destruct Hk as [? | [T2 [-> Hk]]]; [by left|].
      right. by exists T2.
Qed.

(** ** A record of quoted fields *)

Lemma csv_text_cons (e : string) (l : list string) :
  csv_text (e :: l)
  = String DQ (double_quotes e +:+ String DQ (csv_tail l)).
Proof.
  unfold csv_text, csv_tail. destruct l as [|e2 l].
  - cbn [fmap list_fmap strings_Join]. unfold in_quotes. done.
  - rewrite (fmap_cons _ e), strings_Join_cons_fmap.
    by rewrite in_quotes_app.
Qed.

Lemma last_byte_csv_text (e : string) (l : list string) :
  last_byte (csv_text (e :: l)) = Some DQ.
Proof.
  revert e. induction l as [|e2 l IH]; intros e; rewrite csv_text_cons.
  - by rewrite last_byte_cons, last_byte_app.
  - rewrite last_byte_cons, last_byte_app. unfold csv_tail.
    by rewrite !last_byte_cons, IH.
Qed.

Lemma starts_with_double_quotes (c : ascii) (e : string) :
  c ≠ DQ → starts_with c (double_quotes e) = starts_with c e.
Proof.
  intros Hc. destruct e as [|a e]; [done|]. simpl.
  case_bool_decide as Ha; [|done]. subst a. simpl.
  by rewrite !bool_decide_false by done.
Qed.

Lemma no_pair_double_quotes (e : string) :
  no_pair CR LF e = true → no_pair CR LF (double_quotes e) = true.
Proof.
  induction e as [|a e IH]; [done|]. cbn [double_quotes]. intros H.
  simpl in H. apply andb_true_iff in H as [Ha He].
  destruct (decide (a = DQ)) as [->|Hq].
  - rewrite bool_decide_true by done. simpl. by rewrite IH.
  - rewrite bool_decide_false by done. simpl.
    rewrite starts_with_double_quotes by done. by rewrite Ha, IH.
Qed.

Lemma no_pair_app (a b : ascii) (s t : string) :
  no_pair a b s = true → no_pair a b t = true → starts_with b t = false →
  no_pair a b (s +:+ t) = true.
Proof.
  intros Hs Ht Hb. induction s as [|c s IH]; [done|].
  rewrite sapp_cons. simpl in *.
  apply andb_true_iff in Hs as [Hc Hs]. rewrite IH by done.
  rewrite andb_true_r. destruct s as [|d s]; [|done].
  rewrite sapp_nil_l, Hb. by rewrite andb_false_r.
Qed.

Lemma no_pair_csv_text (l : list string) :
  Forall plain l → no_pair CR LF (csv_text l) = true.
Proof.
  induction 1 as [|e l (_ & _ & He) Hl IH]; [done|].
  rewrite csv_text_cons. simpl.
  apply no_pair_app; [by apply no_pair_double_quotes| |done].
  simpl. unfold csv_tail. destruct l; [done|]. simpl. exact IH.
Qed.

Lemma has_byte_csv_text (l : list string) :
  Forall plain l → has_byte BS (csv_text l) = false.
Proof.
  induction 1 as [|e l (He & _ & _) Hl IH]; [done|].
  rewrite csv_text_cons. simpl. rewrite has_byte_app. simpl.
  rewrite has_byte_double_quotes, He by done. simpl.
  unfold csv_tail. destruct l; [done|]. simpl. exact IH.
Qed.

Lemma parseField_quoted (line input T : string) (fields : list string)
    (fuel : nat) :
  cur line input (String DQ T) →
  ∃ line', line = String DQ line' ∧ cur line' input T ∧
    parseField (S fuel) line input fields
    = quotedField fuel line' input "" fields.
Proof.
  intros Hcur. pose proof Hcur as (HT & _ & Hend).
  destruct line as [|c line]; [rewrite Hend in HT by done; done|].
  rewrite sapp_cons in HT. injection HT as <- HT.
  exists line. split; [done|]. split.
  - rewrite HT. by eapply (cur_drop (str1 DQ) line); [|exact Hcur].
  - cbn [parseField starts_with drop_str]. by rewrite bool_decide_true.
Qed.

Lemma parseField_record (l : list string) :
  ∀ (e line input : string) (fields : list string) (fuel : nat),
    cur line input (csv_text (e :: l)) →
    no_pair CR LF (csv_text (e :: l)) = true →
    (String.length line + String.length input < fuel)%nat →
    parseField fuel line input fields = Some (Some (fields ++ e :: l), None).
Proof.
  induction l as [|e2 l IH]; intros e line input fields fuel Hcur Hcrlf Hfuel.
  all: destruct fuel as [|fuel]; [lia|].
  all: rewrite csv_text_cons in Hcur, Hcrlf.
  all: destruct (parseField_quoted _ _ _ fields fuel Hcur)
         as (line' & -> & Hcur' & ->).
  all: apply (no_pair_app_r _ _ (str1 DQ)) in Hcrlf.
  all: simpl in Hfuel.
  - apply (quotedField_elem (String.length e) e line' input "" fields fuel
             (csv_tail []) _ (le_n _)); [done|done|done|lia|].
    left. by rewrite sapp_nil_l.
  - apply (quotedField_elem (String.length e) e line' input "" fields fuel
             (csv_tail (e2 :: l)) _ (le_n _)); [done|done| |lia|].
    + unfold csv_tail. by rewrite last_byte_cons, last_byte_csv_text.
    + right. exists (csv_text (e2 :: l)). split; [done|].
      intros line2 input2 fuel2 Hcur2 Hfuel2. rewrite sapp_nil_l.
      rewrite (IH e2 line2 input2 (fields ++ [e]) fuel2); [|done| |done].
      * by rewrite <- app_assoc.
      * apply (no_pair_app_r _ _ (double_quotes e +:+ String DQ
                 (str1 COMMA))).
        rewrite !sapp_assoc. exact Hcrlf.
Qed.

Lemma csv_Read_record (l : list string) :
  Forall plain l →
  csv_Read (csv_text l)
  = Some (match l with
          | [] => (None, Some EOF)
          | _ => (Some l, None)
          end).
Proof.
  intros Hl. destruct l as [|e l]; [done|].
  pose proof (no_pair_csv_text _ Hl) as Hcrlf.
  pose proof (last_byte_csv_text e l) as Hlast.
  unfold csv_Read. cbn [readRecord].
  destruct (readLine_cur (csv_text (e :: l))) as (line & input & -> & Hcur);
    [by rewrite csv_text_cons|done|by rewrite Hlast|].
  rewrite csv_text_cons in Hcur.
  destruct (parseField_quoted _ _ _ [] 0 Hcur) as (line' & -> & _ & _).
  rewrite <- csv_text_cons in Hcur.
  rewrite bool_decide_false; cycle 1.
  { unfold lengthNL. case_bool_decide as Hnl; simpl; [|lia].
    destruct line'; [done|simpl; lia]. }
  apply (parseField_record l e _ input []); [done|done|lia].
Qed.

(** ** The reader always returns *)

Lemma length_drop_last (s : string) :
  String.length (drop_last s) = (String.length s - 1)%nat.
Proof.
  induction s as [|a s IH]; [done|]. destruct s as [|b s]; [done|].
  rewrite drop_last_cons. simpl in *. lia.
Qed.

Lemma readLine_length (input line rest : string) (eof : bool) :
  readLine input = (line, rest, eof) →
  (String.length line + String.length rest ≤ String.length input)%nat ∧
  (eof = false → String.length rest < String.length input)%nat.
Proof.
  unfold readLine. destruct (take_line input) as [l r] eqn:Etl.
  apply take_line_app in Etl. subst input. rewrite slength_app.
  case_bool_decide as Hl.
  - intros [= <- <- <-]. simpl. split; [lia|done].
  - assert (0 < String.length l)%nat by (destruct l; [done|simpl; lia]).
    intros [= <- <- <-]. split; [|lia].
    repeat case_bool_decide;
      rewrite ?slength_app, ?length_drop_last; simpl; lia.
Qed.

Lemma IndexByte_length (s : string) (c : ascii) (i : nat) :
  IndexByte s c = Some i →
  (String.length (drop_str (i + 1) s) < String.length s)%nat.
Proof.
  intros [Hs _]%IndexByte_Some. rewrite Hs at 2.
  rewrite slength_app. simpl. lia.
Qed.

Lemma length_drop_str (i : nat) (s : string) :
  (String.length (drop_str i s) ≤ String.length s)%nat.
Proof.
  revert s. induction i as [|i IH]; intros [|a s]; simpl; try lia.
  specialize (IH s). lia.
Qed.

Lemma starts_with_length (c : ascii) (s : string) :
  starts_with c s = true →
  (String.length (drop_str 1 s) < String.length s)%nat.
Proof. destruct s; [done|]. simpl. lia. Qed.

Lemma parse_total (fuel : nat) :
  (∀ line input fields,
     (String.length line + String.length input < fuel)%nat →
     is_Some (parseField fuel line input fields)) ∧
  (∀ line input buf fields,
     (String.length line + String.length input < fuel)%nat →
     is_Some (quotedField fuel line input buf fields)).
Proof.
  induction fuel as [|fuel [IHp IHq]]; [split; intros; lia|]. split.
  - intros line input fields Hlen. cbn [parseField].
    destruct (starts_with DQ line) eqn:Hq.
    { apply IHq. apply starts_with_length in Hq. lia. }
    destruct (IndexByte line COMMA) as [i|] eqn:Ei.
    + destruct (IndexByte (take_str i line) DQ); [by eexists|].
      apply IHp. apply IndexByte_length in Ei. lia.
    + destruct (IndexByte _ DQ); by eexists.
  - intros line input buf fields Hlen. cbn [quotedField].
    destruct (IndexByte line DQ) as [i|] eqn:Ei.
    + apply IndexByte_length in Ei.
      destruct (starts_with DQ _) eqn:Hq.
      { apply IHq. apply starts_with_length in Hq. lia. }
      destruct (starts_with COMMA _) eqn:Hc.
      { apply IHp. apply starts_with_length in Hc. lia. }
      case_bool_decide; by eexists.
    + case_bool_decide as Hl; [|by eexists].
      destruct (readLine input) as [[line' input'] eof] eqn:Erl.
      apply readLine_length in Erl as [Hle _]. apply IHq. lia.
Qed.

Lemma readRecord_total (fuel : nat) :
  ∀ input, (String.length input < fuel)%nat →
    is_Some (readRecord fuel input).
Proof.
  induction fuel as [|fuel IH]; intros input Hlen; [lia|].
  cbn [readRecord].
  destruct (readLine input) as [[line rest] eof] eqn:Erl.
  apply readLine_length in Erl as [Hle Hlt].
  destruct eof; [by eexists|]. specialize (Hlt eq_refl).
  case_bool_decide.
  - apply IH. lia.
  - apply parse_total. lia.
Qed.

(** [Read] returns for every text: the fuel of the model is enough. *)
Lemma csv_Read_total (str : string) : is_Some (csv_Read str).
Proof. apply readRecord_total. lia. Qed.

(** * The wire form *)

Lemma quote_elem_fmap_plain (l : list string) :
  Forall plain l →
  quote_elem <$> l = (λ e, in_quotes (escape_quotes e)) <$> l.
Proof.
  intros Hl. apply Forall_fmap_ext.
  eapply Forall_impl; [exact Hl|].
  intros e (He & _). by apply quote_elem_plain.
Qed.

Lemma starts_with_stored (l : list string) (tail : string) :
  starts_with BS tail = false →
  starts_with BS
    (strings_Join ((λ e, in_quotes (escape_quotes e)) <$> l) "," +:+ tail)
  = false.
Proof.
  intros Ht. destruct l as [|e [|e2 l]]; [done|done|].
  by rewrite fmap_cons, strings_Join_cons_fmap.
Qed.

(** [Scan] of the text that [Value] returns for plain elements. *)
Lemma Scan_Value_plain (l s0 : StringSlice) :
  Forall plain (elems l) →
  StringSlice_Scan s0 (SrcBytes (Value_text l))
  = Returns (match elems l with [] => None | _ => Some (elems l) end) None.
Proof.
  intros Hl. rewrite Value_text_fmap, quote_elem_fmap_plain by done.
  unfold StringSlice_Scan, quoteEscapeRegex_ReplaceAllString.
  change ("{" +:+ ?X) with (String "{" X).
  rewrite ReplaceAll_no_match by (by apply starts_with_stored).
  rewrite ReplaceAll_list by done.
  change (ReplaceAllString_from 0 "}") with (str1 "}").
  fold (csv_text (elems l)).
  unfold strings_Replace, quoteEscape_backslashes.
  rewrite Replace_absent; cycle 1.
  { simpl. by rewrite has_byte_app, has_byte_csv_text. }
  rewrite slice_str_middle, csv_Read_record by done.
  by destruct (elems l).
Qed.

(** C1, amended.  For every list whose elements are plain (no backslash, no
    two double quotes in a row, no carriage return followed by a line feed),
    [Scan] of the bytes of the text that [Value] returns succeeds and the
    receiver then holds exactly the elements of the list; this covers the
    empty list, empty strings, commas, line feeds and single double quotes. *)
Theorem decode_encode_plain (l s0 : StringSlice) :
  Forall plain (elems l) →
  ∃ s', StringSlice_Scan s0 (SrcBytes (Value_text l)) = Returns s' None ∧
        elems s' = elems l.
Proof.
  intros Hl. rewrite Scan_Value_plain by done.
  eexists. split; [done|]. by destruct (elems l).
Qed.

Lemma decode_encode_plain_witness :
  let l := Some ["a"; "b,c"; ""; String DQ ("x" +:+ str1 DQ);
                 "one" +:+ NL +:+ "two"; str1 CR] in
  Forall plain (elems l) ∧
  ∃ s', StringSlice_Scan None (SrcBytes (Value_text l)) = Returns s' None ∧
        elems s' = elems l.
Proof.
  split.
  - repeat constructor.
  - apply decode_encode_plain. repeat constructor.
Defined.

(** C1 as stated fails: the list whose one element is a single backslash is
    encoded with three backslashes, which [Scan] cannot read back: it returns
    an error. *)
Lemma decode_encode_backslash :
  decode_encode (Some [str1 BS]) = Returns None (Some (ErrCsv ErrQuote)) ∧
  ¬ (∃ s', decode_encode (Some [str1 BS]) = Returns s' None ∧
           elems s' = [str1 BS]).
Proof. split; [reflexivity|]. intros (s' & H & _). discriminate H. Qed.

(** An element with a backslash between two letters is read back with two
    backslashes. *)
Lemma decode_encode_inner_backslash :
  decode_encode (Some ["a\b"]) = Returns (Some ["a\\b"]) None.
Proof. reflexivity. Qed.

(** Two double quotes in a row are not read back either: the match for the
    first takes the byte in front of the second. *)
Lemma decode_encode_adjacent_quotes :
  decode_encode (Some [String DQ (str1 DQ)])
  = Returns None (Some (ErrCsv ErrQuote)).
Proof. reflexivity. Qed.

(** A carriage return followed by a line feed comes back as a line feed. *)
Lemma decode_encode_crlf :
  decode_encode (Some [String CR (str1 LF)]) = Returns (Some [str1 LF]) None.
Proof. reflexivity. Qed.

(** C2 fails on the code: [Value] assigns to the elements of the slice it is
    called on.  After the call every element is its stored text, so the
    elements of a non-empty list have changed, and a second call on the same
    list returns another text. *)
Theorem Value_overwrites_elements :
  (∀ l : list string, Value_after (Some l) = Some (quote_elem <$> l)) ∧
  Value_after (Some ["a"]) = Some [in_quotes "a"] ∧
  Value_after (Some ["a"]) ≠ Some ["a"] ∧
  Value_text (Some ["a"]) = "{" +:+ in_quotes "a" +:+ "}" ∧
  Value_text (Value_after (Some ["a"]))
  = "{" +:+ String DQ (String BS (String DQ
               ("a" +:+ String BS (String DQ (str1 DQ))))) +:+ "}" ∧
  Value_text (Value_after (Some ["a"])) ≠ Value_text (Some ["a"]).
Proof.
  split; [exact Value_after_fmap|]. repeat split; done.
Qed.

(** C3. [Value] of the empty list, nil or not, returns the two bytes of an
    opening and a closing brace and no error; [Scan] of these two bytes
    returns no error and leaves a receiver without elements. *)
Theorem empty_list_wire_form :
  StringSlice_Value (Some []) = (Some [], "{}", None) ∧
  StringSlice_Value None = (None, "{}", None) ∧
  (∀ s0 : StringSlice,
     StringSlice_Scan s0 (SrcBytes "{}") = Returns None None) ∧
  elems None = [].
Proof. repeat split; reflexivity. Qed.

(** C9 fails on the code: on the empty input, on a single byte and on two
    backslashes, which the replacements shorten to one, the slice expression
    that strips the braces is out of bounds and [Scan] panics. *)
Theorem Scan_panics_on_short_input (s0 : StringSlice) :
  StringSlice_Scan s0 (SrcBytes "") = Panics ∧
  StringSlice_Scan s0 (SrcBytes "{") = Panics ∧
  StringSlice_Scan s0 (SrcBytes "\\") = Panics.
Proof. repeat split; reflexivity. Qed.

(** [Scan] panics exactly when the text left by the two replacements has
    fewer than two bytes. *)
Lemma Scan_panics_iff (s0 : StringSlice) (b : string) :
  StringSlice_Scan s0 (SrcBytes b) = Panics ↔
  slen (strings_Replace (quoteEscapeRegex_ReplaceAllString b)
          quoteEscape_backslashes (str1 BS)) < 2.
Proof.
  unfold StringSlice_Scan. set (str := strings_Replace _ _ _).
  unfold slice_str. case_bool_decide as Hb.
  - destruct (csv_Read_total (String.substring (Z.to_nat 1)
                (Z.to_nat (slen str - 1 - 1)) str)) as [[slice err] ->].
    split; [|lia]. by destruct err as [[]|].
  - split; [|done]. intros _. unfold slen in *. lia.
Qed.

Lemma Add_classification_routing_witness :
  let wc := [mkWC "go" CommandI; mkWC "run" CommandI; mkWC "x" NoneI;
             mkWC "go" CommandI; mkWC "him" ActorI] in
  let si := mkSI 7 "a@b" FlexIdTypeEmail "go" (Some ["stop"]) None None None
              None in
  wc ≠ [] ∧ Forall (λ w, recognised (Class w)) wc ∧
  ∃ si', StructuredInput_Add si wc = (si', [], None) ∧ routes_into si wc si'.
Proof.
  assert (H1 : [mkWC "go" CommandI; mkWC "run" CommandI; mkWC "x" NoneI;
                mkWC "go" CommandI; mkWC "him" ActorI] ≠ []) by done.
  assert (H2 : Forall (λ w, recognised (Class w))
                 [mkWC "go" CommandI; mkWC "run" CommandI; mkWC "x" NoneI;
                  mkWC "go" CommandI; mkWC "him" ActorI]).
  { unfold recognised. repeat constructor; simpl; tauto. }
  split; [exact H1|]. split; [exact H2|].
  exact (proj2 Add_classification_routing _ _ H1 H2).
Defined.

Lemma Add_fail_fast_no_rollback_witness :
  let pre := [mkWC "foo" CommandI; mkWC "him" ActorI] in
  let w := mkWC "bar" 7 in
  let post := [mkWC "late" PlaceI] in
  Forall (λ w, recognised (Class w)) pre ∧ ¬ recognised (Class w) ∧
  ∃ si', StructuredInput_Add zeroSI (pre ++ w :: post)
         = (si', [LogInvalidClass (Class w)], Some ErrInvalidClass) ∧
         routes_into zeroSI pre si'.
Proof.
  assert (H1 : Forall (λ w, recognised (Class w))
                 [mkWC "foo" CommandI; mkWC "him" ActorI]).
  { unfold recognised. repeat constructor; simpl; tauto. }
  assert (H2 : ¬ recognised (Class (mkWC "bar" 7))).
  { unfold recognised. simpl. intros [H|[H|[H|[H|[H|H]]]]]; discriminate H. }
  split; [exact H1|]. split; [exact H2|].
  exact (proj2 Add_fail_fast_no_rollback zeroSI _ _ _ H1 H2).
Defined.

Lemma String_rendering_witness :
  elems None = [] ∧ elems (Some []) = [] ∧
  StructuredInput_String (mkSI 0 "" 0 "" None (Some ["me"]) (Some []) None
                            (Some []))
  = Some (NL +:+ "Actors: me" +:+ NL).
Proof.
  split; [reflexivity|]. split; [reflexivity|].
  exact (proj2 (proj2 (proj2 (proj2 String_rendering))) 0 "" 0 "" None
           (Some []) None (Some []) eq_refl eq_refl eq_refl eq_refl).
Defined.

(** * Further properties of ingestion *)

Global Instance recognised_dec (c : Z) : Decision (recognised c).
Proof. unfold recognised. apply _. Defined.

Lemma first_unrecognised (wc : list WordClass) :
  Forall (λ w, recognised (Class w)) wc ∨
  ∃ pre w post, wc = pre ++ w :: post ∧
                Forall (λ w, recognised (Class w)) pre ∧
                ¬ recognised (Class w).
Proof.
  induction wc as [|w wc IH]; [by left|].
  destruct (decide (recognised (Class w))) as [Hw|Hw].
  - destruct IH as [IH | (pre & x & post & -> & Hpre & Hx)].
    + left. by constructor.
    + right. exists (w :: pre), x, post. repeat split; [|done].
      by constructor.
  - right. exists [], w, wc. by repeat split.
Qed.

(** What [Add] returns, by the shape of the batch. *)
Lemma Add_cases (si : StructuredInput) (wc : list WordClass) :
  (wc = [] ∧
   StructuredInput_Add si wc = (si, [], Some ErrInvalidOddParameter)) ∨
  (wc ≠ [] ∧ Forall (λ w, recognised (Class w)) wc ∧
   StructuredInput_Add si wc = (routed si wc, [], None)) ∨
  (∃ pre w post, wc = pre ++ w :: post ∧
     Forall (λ w, recognised (Class w)) pre ∧ ¬ recognised (Class w) ∧
     StructuredInput_Add si wc
     = (routed si pre, [LogInvalidClass (Class w)], Some ErrInvalidClass)).
Proof.
  destruct wc as [|w0 wc]; [by left|]. right.
  destruct (first_unrecognised (w0 :: wc))
    as [Hall | (pre & w & post & E & Hpre & Hw)].
  - left. split; [done|]. split; [done|].
    unfold StructuredInput_Add. rewrite bool_decide_false by done.
    pose proof (Add_loop_recognised (w0 :: wc) si [] Hall) as H.
    by rewrite app_nil_r in H.
  - right. exists pre, w, post. repeat split; [done..|].
    rewrite E. unfold StructuredInput_Add.
    rewrite bool_decide_false by (rewrite length_app; simpl; lia).
    rewrite Add_loop_recognised by done. by apply Add_loop_unrecognised.
Qed.

Lemma Add_success (si si' : StructuredInput) (wc : list WordClass)
    (log : list log_entry) :
  StructuredInput_Add si wc = (si', log, None) →
  wc ≠ [] ∧ Forall (λ w, recognised (Class w)) wc ∧
  si' = routed si wc ∧ log = [].
Proof.
  intros H.
  destruct (Add_cases si wc)
    as [[_ E] | [(Hne & Hall & E) | (pre & w & post & _ & _ & _ & E)]];
    rewrite E in H; by simplify_eq.
Qed.

(** X1. [Add] returns the error of the empty argument exactly on the empty
    batch, no error exactly on a non-empty batch of recognised classes, and
    the error of the invalid class exactly when some pair has a class that is
    none of the six; it logs, one entry, exactly in the last case. *)
Theorem Add_error_cases (si : StructuredInput) (wc : list WordClass) :
  ((StructuredInput_Add si wc).2 = Some ErrInvalidOddParameter ↔ wc = []) ∧
  ((StructuredInput_Add si wc).2 = None ↔
     wc ≠ [] ∧ Forall (λ w, recognised (Class w)) wc) ∧
  ((StructuredInput_Add si wc).2 = Some ErrInvalidClass ↔
     Exists (λ w, ¬ recognised (Class w)) wc) ∧
  ((StructuredInput_Add si wc).1.2 ≠ [] ↔
     (StructuredInput_Add si wc).2 = Some ErrInvalidClass) ∧
  (length (StructuredInput_Add si wc).1.2 ≤ 1)%nat.
Proof.
  destruct (Add_cases si wc)
    as [[-> E] | [(Hne & Hall & E) | (pre & w & post & -> & Hpre & Hw & E)]];
    rewrite E; simpl.
  - repeat split; try done; try lia.
    + intros [? _]. done.
    + intros H. by apply Exists_nil in H.
  - repeat split; try done; try lia.
    intros Hex. apply Exists_exists in Hex as (w & Hin & Hw).
    rewrite Forall_forall in Hall. by destruct Hw; apply Hall.
  - assert (Hex : Exists (λ w, ¬ recognised (Class w)) (pre ++ w :: post)).
    { apply Exists_app. right. by left. }
    repeat split; try done; try lia.
    + intros H. by destruct pre.
    + intros [_ Hall]. apply Forall_app in Hall as [_ Hall].
      by apply Forall_cons in Hall as [? _].
Qed.

Lemma words_of_app (c : Z) (a b : list WordClass) :
  words_of c (a ++ b) = words_of c a ++ words_of c b.
Proof. unfold words_of. by rewrite filter_app, fmap_app. Qed.

(** X2. A batch that follows a successful [Add] gives what one [Add] of the
    two batches in a row gives: the receiver, the log and the error. *)
Theorem Add_in_two_batches (si si1 : StructuredInput)
    (wc1 wc2 : list WordClass) :
  StructuredInput_Add si wc1 = (si1, [], None) →
  wc2 ≠ [] →
  StructuredInput_Add si (wc1 ++ wc2) = StructuredInput_Add si1 wc2.
Proof.
  intros H1 H2. apply Add_success in H1 as (Hne & Hall & -> & _).
  unfold StructuredInput_Add.
  rewrite !bool_decide_false; [|by destruct wc2|by destruct wc1].
  by apply Add_loop_recognised.
Qed.

Lemma Add_in_two_batches_witness :
  StructuredInput_Add zeroSI [mkWC "go" CommandI; mkWC "x" NoneI]
  = (mkSI 0 "" 0 "" (Some ["go"]) None None None None, [], None) ∧
  [mkWC "him" ActorI; mkWC "bad" 9; mkWC "car" ObjectI] ≠ [] ∧
  StructuredInput_Add zeroSI
    ([mkWC "go" CommandI; mkWC "x" NoneI] ++
     [mkWC "him" ActorI; mkWC "bad" 9; mkWC "car" ObjectI])
  = StructuredInput_Add (mkSI 0 "" 0 "" (Some ["go"]) None None None None)
      [mkWC "him" ActorI; mkWC "bad" 9; mkWC "car" ObjectI].
Proof.
  split; [reflexivity|]. split; [done|].
  apply Add_in_two_batches; [reflexivity|done].
Defined.

(** X3. Whatever the batch and whatever [Add] returns, every list of the
    receiver still begins with the elements it had, in their order, and the
    identity fields and the sentence are what they were. *)
Theorem Add_only_appends (si : StructuredInput) (wc : list WordClass) :
  elems (Commands si)
    `prefix_of` elems (Commands (StructuredInput_Add si wc).1.1) ∧
  elems (Actors si)
    `prefix_of` elems (Actors (StructuredInput_Add si wc).1.1) ∧
  elems (Objects si)
    `prefix_of` elems (Objects (StructuredInput_Add si wc).1.1) ∧
  elems (Times si)
    `prefix_of` elems (Times (StructuredInput_Add si wc).1.1) ∧
  elems (Places si)
    `prefix_of` elems (Places (StructuredInput_Add si wc).1.1) ∧
  UserId (StructuredInput_Add si wc).1.1 = UserId si ∧
  FlexId (StructuredInput_Add si wc).1.1 = FlexId si ∧
  FlexIdType (StructuredInput_Add si wc).1.1 = FlexIdType si ∧
  Sentence (StructuredInput_Add si wc).1.1 = Sentence si.
Proof.
  assert (Hr : ∀ b, let si' := routed si b in
    elems (Commands si) `prefix_of` elems (Commands si') ∧
    elems (Actors si) `prefix_of` elems (Actors si') ∧
    elems (Objects si) `prefix_of` elems (Objects si') ∧
    elems (Times si) `prefix_of` elems (Times si') ∧
    elems (Places si) `prefix_of` elems (Places si') ∧
    UserId si' = UserId si ∧ FlexId si' = FlexId si ∧
    FlexIdType si' = FlexIdType si ∧ Sentence si' = Sentence si).
  { intros b. simpl. rewrite !elems_appended.
    repeat split; by apply prefix_app_r. }
  destruct (Add_cases si wc)
    as [[-> E] | [(Hne & Hall & E) | (pre & w & post & -> & Hpre & Hw & E)]];
    rewrite E; simpl.
  - by repeat split.
  - apply (Hr wc).
  - apply (Hr pre).
Qed.

Lemma kept_or_filled_appended (s : StringSlice) (ws : list string) :
  kept_or_filled s (appended s ws) ws.
Proof. split; [by intros ->|]. by destruct ws. Qed.

(** X4. After a successful [Add], a list to which the batch brought no word
    is exactly what it was, a nil slice included, and a list to which it
    brought a word is not nil. *)
Theorem Add_untouched_lists (si si' : StructuredInput)
    (wc : list WordClass) (log : list log_entry) :
  StructuredInput_Add si wc = (si', log, None) →
  kept_or_filled (Commands si) (Commands si') (words_of CommandI wc) ∧
  kept_or_filled (Actors si) (Actors si') (words_of ActorI wc) ∧
  kept_or_filled (Objects si) (Objects si') (words_of ObjectI wc) ∧
  kept_or_filled (Times si) (Times si') (words_of TimeI wc) ∧
  kept_or_filled (Places si) (Places si') (words_of PlaceI wc).
Proof.
  intros (_ & _ & -> & _)%Add_success. simpl.
  repeat split; apply kept_or_filled_appended.
Qed.

Lemma Add_untouched_lists_witness :
  StructuredInput_Add zeroSI [mkWC "x" NoneI; mkWC "go" CommandI]
  = (mkSI 0 "" 0 "" (Some ["go"]) None None None None, [], None) ∧
  kept_or_filled None (Some ["go"])
    (words_of CommandI [mkWC "x" NoneI; mkWC "go" CommandI]) ∧
  kept_or_filled None None
    (words_of ActorI [mkWC "x" NoneI; mkWC "go" CommandI]).
Proof.
  split; [reflexivity|].
  pose proof (Add_untouched_lists zeroSI _ [mkWC "x" NoneI; mkWC "go" CommandI]
                [] eq_refl) as (H1 & H2 & _).
  split; [exact H1 | exact H2].
Defined.

(** X5. After a successful [Add], [Pronouns] returns the pronouns among what
    Objects held and the batch's Object words, then Actors and the Actor
    words, then Times and the Time words, then Places and the Place words; a
    word that arrived as a Command or as ignored is never among them. *)
Theorem Pronouns_after_Add (si si' : StructuredInput)
    (wc : list WordClass) (log : list log_entry) :
  StructuredInput_Add si wc = (si', log, None) →
  StructuredInput_Pronouns si' =
    Some (filter (λ w, w ∈ pronoun_set)
            ((elems (Objects si) ++ words_of ObjectI wc) ++
             (elems (Actors si) ++ words_of ActorI wc) ++
             (elems (Times si) ++ words_of TimeI wc) ++
             (elems (Places si) ++ words_of PlaceI wc))).
Proof.
  intros (_ & _ & -> & _)%Add_success.
  unfold StructuredInput_Pronouns. simpl.
  rewrite !collect_pronouns_filter, !elems_appended. simpl.
  by rewrite !filter_app, <- !app_assoc.
Qed.

Lemma Pronouns_after_Add_witness :
  let wc := [mkWC "it" CommandI; mkWC "him" ActorI; mkWC "me" NoneI;
             mkWC "car" ObjectI; mkWC "that" ObjectI] in
  let si' := mkSI 0 "" 0 "" (Some ["it"]) (Some ["him"])
               (Some ["car"; "that"]) None None in
  StructuredInput_Add zeroSI wc = (si', [], None) ∧
  StructuredInput_Pronouns si' = Some ["that"; "him"].
Proof.
  split; [reflexivity|].
  exact (Pronouns_after_Add zeroSI _
           [mkWC "it" CommandI; mkWC "him" ActorI; mkWC "me" NoneI;
            mkWC "car" ObjectI; mkWC "that" ObjectI] [] eq_refl).
Defined.

(** X6. No word of the [Pronouns] table is mapped to zero: every entry has
    the class Actor, Object, Time or Place, so the test [Pronouns[w] != 0]
    holds exactly for the keys of the table. *)
Theorem Pronouns_table_classes (w : string) :
  (∀ c, Pronouns !! w = Some c →
        c = ActorI ∨ c = ObjectI ∨ c = TimeI ∨ c = PlaceI) ∧
  (Pronouns_at w ≠ 0 ↔ is_Some (Pronouns !! w)).
Proof.
  unfold Pronouns_at, Pronouns. simpl.
  repeat (rewrite lookup_insert; case_decide;
          [split; [intros c [= <-]; tauto
                  |split; [by eexists|done]] | ]).
  rewrite lookup_empty. split; [done|].
  split; [done|]. by intros [? ?].
Qed.


(** X8. The rendering does not tell apart one element that contains a comma
    and a space from two elements: both give the same text. *)
Theorem String_joins_without_escaping
    (uid : Z) (fid : string) (ft : Z) (sen : string)
    (c o t p : StringSlice) (x y : string) (rest : list string) :
  StructuredInput_String
    (mkSI uid fid ft sen c (Some ((x +:+ ", " +:+ y) :: rest)) o t p)
  = StructuredInput_String
      (mkSI uid fid ft sen c (Some (x :: y :: rest)) o t p).
Proof.
  unfold StructuredInput_String. simpl.
  rewrite !add_line_category.
  assert (E : category_line "Actors: " (Some ((x +:+ ", " +:+ y) :: rest))
              = category_line "Actors: " (Some (x :: y :: rest))).
  { unfold category_line. simpl. destruct rest; [done|].
    by rewrite !sapp_assoc. }
  by rewrite E.
Qed.

Lemma Last_default (s : StringSlice) :
  StringSlice_Last s = Some (default "" (last (elems s))).
Proof.
  unfold StringSlice_Last, len.
  generalize (elems s). intros l.
  destruct l as [|x l _] using rev_ind; [done|].
  rewrite bool_decide_false by (rewrite length_app; simpl; lia).
  rewrite last_snoc, length_app. simpl.
  replace (Z.to_nat (Z.of_nat (length l + 1) - 1)) with (length l + 0)%nat
    by lia.
  by rewrite lookup_app_r, Nat.add_0_r, Nat.sub_diag by lia.
Qed.

Lemma Last_appended (s : StringSlice) (ws : list string) :
  StringSlice_Last (appended s ws) =
    match last ws with
    | Some w => Some w
    | None => StringSlice_Last s
    end.
Proof.
  rewrite !Last_default, elems_appended.
  destruct ws as [|w ws _] using rev_ind; [by rewrite app_nil_r|].
  by rewrite app_assoc, !last_snoc.
Qed.

(** X9. After a successful [Add], [Last] of a list is the last word of the
    list's class in the batch when the batch has one, and what [Last] of the
    list was before otherwise. *)
Theorem Last_after_Add (si si' : StructuredInput)
    (wc : list WordClass) (log : list log_entry) :
  StructuredInput_Add si wc = (si', log, None) →
  StringSlice_Last (Commands si') =
    match last (words_of CommandI wc) with
    | Some w => Some w | None => StringSlice_Last (Commands si) end ∧
  StringSlice_Last (Actors si') =
    match last (words_of ActorI wc) with
    | Some w => Some w | None => StringSlice_Last (Actors si) end ∧
  StringSlice_Last (Objects si') =
    match last (words_of ObjectI wc) with
    | Some w => Some w | None => StringSlice_Last (Objects si) end ∧
  StringSlice_Last (Times si') =
    match last (words_of TimeI wc) with
    | Some w => Some w | None => StringSlice_Last (Times si) end ∧
  StringSlice_Last (Places si') =
    match last (words_of PlaceI wc) with
    | Some w => Some w | None => StringSlice_Last (Places si) end.
Proof.
  intros (_ & _ & -> & _)%Add_success. simpl.
  by rewrite !Last_appended.
Qed.

Lemma Last_after_Add_witness :
  let wc := [mkWC "go" CommandI; mkWC "him" ActorI; mkWC "run" CommandI] in
  let si := mkSI 0 "" 0 "" None None (Some ["car"]) None None in
  let si' := mkSI 0 "" 0 "" (Some ["go"; "run"]) (Some ["him"])
               (Some ["car"]) None None in
  StructuredInput_Add si wc = (si', [], None) ∧
  StringSlice_Last (Commands si') = Some "run" ∧
  StringSlice_Last (Objects si') = Some "car" ∧
  StringSlice_Last (Times si') = Some "".
Proof.
  split; [reflexivity|].
  pose proof (Last_after_Add
                (mkSI 0 "" 0 "" None None (Some ["car"]) None None) _
                [mkWC "go" CommandI; mkWC "him" ActorI; mkWC "run" CommandI]
                [] eq_refl) as (H1 & _ & H3 & H4 & _).
  split; [exact H1|]. split; [exact H3 | exact H4].
Defined.

(** * Further properties of [Scan] *)

Lemma non_backslashes_app (s t : string) :
  non_backslashes (s +:+ t) = (non_backslashes s + non_backslashes t)%nat.
Proof.
  induction s as [|a s IH]; [done|]. rewrite sapp_cons. simpl.
  rewrite IH. lia.
Qed.

Lemma drop_str_app (s t : string) :
  drop_str (String.length s) (s +:+ t) = t.
Proof. induction s as [|a s IH]; [by destruct t|]. by rewrite sapp_cons. Qed.

Lemma non_backslashes_drop (k : nat) (s : string) :
  (non_backslashes (drop_str k s) ≤ non_backslashes s)%nat.
Proof.
  revert s. induction k as [|k IH]; intros [|a s]; simpl; try lia.
  specialize (IH s). lia.
Qed.

(** A match of the pairs and the tail splits the text. *)
Lemma match_pairs_tail_split (n : nat) :
  ∀ s g r, (String.length s ≤ n)%nat →
    match_pairs_tail s = Some (g, r) →
    s = g +:+ String BS (String DQ r) ∧ non_backslashes g = 0%nat.
Proof.
  induction n as [n IH] using lt_wf_ind. intros s g r Hn.
  destruct s as [|a [|b s]]; [done..|]. simpl in Hn. simpl.
  case_bool_decide as Ha; [|done]. subst a.
  case_bool_decide as Hb.
  - subst b. destruct (match_pairs_tail s) as [[g' r']|] eqn:E; [|done].
    intros [= <- <-].
    destruct (IH (String.length s) ltac:(lia) s g' r' (le_n _) E) as [-> Hg].
    split; [done|]. simpl. by rewrite Hg.
  - case_bool_decide as Hq; [|done]. subst b. by intros [= <- <-].
Qed.

(** The replacement of the matches loses no byte that is not a backslash. *)
Lemma ReplaceAll_non_backslashes (s : string) :
  ∀ k, (non_backslashes (drop_str k s)
        ≤ non_backslashes (ReplaceAllString_from k s))%nat.
Proof.
  induction s as [|a s IH]; intros k; [by destruct k|].
  destruct k as [|k]; [|apply IH].
  cbn [ReplaceAllString_from drop_str quoteEscapeRegex_match].
  case_bool_decide as Ha.
  { simpl. rewrite bool_decide_true by done. apply (IH 0%nat). }
  destruct (match_pairs_tail s) as [[g r]|] eqn:E.
  - destruct (match_pairs_tail_split _ s g r (le_n _) E) as [Hs Hg].
    specialize (IH (String.length (String a g) + 1)%nat).
    assert (Hd : drop_str (String.length (String a g) + 1) s = r).
    { rewrite Hs.
      replace (String.length (String a g) + 1)%nat
        with (String.length (g +:+ String BS (str1 DQ)))
        by (rewrite slength_app; simpl; lia).
      replace (g +:+ String BS (String DQ r))
        with ((g +:+ String BS (str1 DQ)) +:+ r) by (by rewrite sapp_assoc).
      apply drop_str_app. }
    rewrite Hd in IH. rewrite Hs at 1. rewrite sapp_cons.
    cbn [non_backslashes]. rewrite !non_backslashes_app.
    cbn [non_backslashes]. rewrite Hg.
    rewrite !(bool_decide_false (DQ = BS)), (bool_decide_true (BS = BS))
      by done.
    lia.
  - simpl. rewrite bool_decide_false by done. specialize (IH 0%nat).
    simpl in IH. lia.
Qed.

(** Halving the pairs of backslashes loses no other byte. *)
Lemma Replace_non_backslashes (s : string) :
  ∀ k, (non_backslashes (drop_str k s)
        ≤ String.length
            (Replace_from k s quoteEscape_backslashes (str1 BS)))%nat.
Proof.
  induction s as [|a s IH]; intros k; [by destruct k|].
  destruct k as [|k]; [|apply IH].
  cbn [Replace_from drop_str]. destruct (String.prefix _ _) eqn:Hp.
  - unfold quoteEscape_backslashes in Hp. cbn [String.prefix] in Hp.
    destruct (ascii_dec BS a) as [<-|]; [|done].
    destruct s as [|b s]; [done|]. cbn [String.prefix] in Hp.
    destruct (ascii_dec BS b) as [<-|]; [|done].
    specialize (IH 1%nat). simpl in IH. simpl.
    rewrite slength_app. simpl. lia.
  - simpl. specialize (IH 0%nat). simpl in IH. case_bool_decide; lia.
Qed.

(** X10. [Scan] returns, with or without an error, on every input of bytes
    that has two bytes other than a backslash, and so on every text between
    an opening and a closing brace and on every text that [Value] returns. *)
Theorem Scan_returns_in_braces :
  (∀ (s0 : StringSlice) (b : string),
     (2 ≤ non_backslashes b)%nat →
     StringSlice_Scan s0 (SrcBytes b) ≠ Panics) ∧
  (∀ (s0 : StringSlice) (body : string),
     StringSlice_Scan s0 (SrcBytes ("{" +:+ body +:+ "}")) ≠ Panics) ∧
  (∀ s0 l : StringSlice,
     StringSlice_Scan s0 (SrcBytes (Value_text l)) ≠ Panics).
Proof.
  assert (H : ∀ (s0 : StringSlice) (b : string),
     (2 ≤ non_backslashes b)%nat →
     StringSlice_Scan s0 (SrcBytes b) ≠ Panics).
  { intros s0 b Hb. rewrite Scan_panics_iff.
    unfold strings_Replace, quoteEscapeRegex_ReplaceAllString, slen.
    pose proof (Replace_non_backslashes (ReplaceAllString_from 0 b) 0).
    pose proof (ReplaceAll_non_backslashes b 0).
    replace (drop_str 0 b) with b in * by (by destruct b).
    replace (drop_str 0 (ReplaceAllString_from 0 b))
      with (ReplaceAllString_from 0 b) in *
      by (by destruct (ReplaceAllString_from 0 b)).
    lia. }
  split; [exact H|].
  assert (Hb : ∀ (s0 : StringSlice) (body : string),
     StringSlice_Scan s0 (SrcBytes ("{" +:+ body +:+ "}")) ≠ Panics).
  { intros s0 body. apply H. rewrite !non_backslashes_app. simpl. lia. }
  split; [exact Hb|]. intros s0 l. rewrite Value_text_fmap. apply Hb.
Qed.

Lemma Scan_returns_in_braces_witness :
  (2 ≤ non_backslashes "{a\\}")%nat ∧
  StringSlice_Scan None (SrcBytes "{a\\}") ≠ Panics.
Proof.
  assert (H : (2 ≤ non_backslashes "{a\\}")%nat) by (simpl; lia).
  split; [exact H|]. exact (proj1 Scan_returns_in_braces None _ H).
Defined.

(** X11. When [Scan] returns an error the receiver is what it was; this is
    so for every source that is not a slice of bytes, a string and nil
    included.  When it returns no error, the receiver's new value does not
    depend on what the receiver held. *)
Theorem Scan_receiver (s0 : StringSlice) (src : src_value) :
  (∀ s' e, StringSlice_Scan s0 src = Returns s' (Some e) → s' = s0) ∧
  (∀ s', StringSlice_Scan s0 src = Returns s' None →
         ∀ s1, StringSlice_Scan s1 src = Returns s' None) ∧
  ((∀ b, src ≠ SrcBytes b) →
   StringSlice_Scan s0 src = Returns s0 (Some ErrScanSource)).
Proof.
  destruct src as [b|?|?|]; simpl;
    try (repeat split; [by intros ?? [= -> _]|done..]).
  split; [|split].
  - intros s' e. destruct (slice_str _ _ _) as [str|]; [|done].
    destruct (csv_Read str) as [[slice [[]|]]|]; by intros [= <-].
  - intros s'. destruct (slice_str _ _ _) as [str|]; [|done].
    destruct (csv_Read str) as [[slice [[]|]]|]; by intros [= <-].
  - intros H. by destruct (H b).
Qed.

Lemma Scan_receiver_witness :
  (∀ b, SrcString "{}" ≠ SrcBytes b) ∧
  StringSlice_Scan (Some ["kept"]) (SrcString "{}")
  = Returns (Some ["kept"]) (Some ErrScanSource).
Proof.
  assert (H : ∀ b, SrcString "{}" ≠ SrcBytes b) by done.
  split; [exact H|].
  exact (proj2 (proj2 (Scan_receiver (Some ["kept"]) (SrcString "{}"))) H).
Defined.

(** ** The array text with escaped elements *)

Lemma ReplaceAll_backslash (s : string) :
  ReplaceAllString_from 0 (String BS s)
  = String BS (ReplaceAllString_from 0 s).
Proof. reflexivity. Qed.

(** A pair of backslashes behind a byte stays where it is. *)
Lemma ReplaceAll_shift (c : ascii) (Y : string) :
  c ≠ BS →
  ∃ t, ReplaceAllString_from 0 (String c Y) = String c t ∧
       ReplaceAllString_from 0 (String c (String BS (String BS Y)))
       = String c (String BS (String BS t)).
Proof.
  intros Hc. cbn [ReplaceAllString_from quoteEscapeRegex_match].
  rewrite bool_decide_false by done.
  cbn [match_pairs_tail]. rewrite !(bool_decide_true (BS = BS)) by done.
  destruct (match_pairs_tail Y) as [[g r]|].
  - eexists. split; [by rewrite sapp_cons|].
    rewrite !sapp_cons. simpl. reflexivity.
  - by eexists.
Qed.

Lemma ReplaceAll_escaped (e : string) :
  ∀ rest, starts_with BS rest = false →
    (quotes_apart true e = true → ∀ c, c ≠ BS →
       ReplaceAllString_from 0 (String c (escape_element e +:+ rest))
       = String c (double_both e +:+ ReplaceAllString_from 0 rest)) ∧
    (quotes_apart false e = true →
       ReplaceAllString_from 0 (escape_element e +:+ rest)
       = double_both e +:+ ReplaceAllString_from 0 rest).
Proof.
  induction e as [|x e IH]; intros rest Hrest.
  { split; [|done]. intros _ c Hc. by apply ReplaceAll_no_match. }
  destruct (IH rest Hrest) as [IHa IHb].
  cbn [escape_element double_both quotes_apart].
  destruct (decide (x = BS)) as [->|Hx].
  - rewrite !(bool_decide_true (BS = BS)) by done. split.
    + intros Hq c Hc. rewrite !sapp_cons.
      destruct (ReplaceAll_shift c (escape_element e +:+ rest) Hc)
        as (t & Ht & ->).
      rewrite IHa in Ht by done. by injection Ht as <-.
    + intros Hq. rewrite !sapp_cons, !ReplaceAll_backslash.
      by rewrite IHb.
  - rewrite !(bool_decide_false (x = BS)) by done.
    destruct (decide (x = DQ)) as [->|Hxq].
    + rewrite !(bool_decide_true (DQ = DQ)) by done. split; [|done].
      intros Hq c Hc. simpl in Hq. rewrite !sapp_cons.
      rewrite ReplaceAll_match by done. by rewrite IHb.
    + rewrite !(bool_decide_false (x = DQ)) by done.
      split.
      * intros Hq c Hc. rewrite !sapp_cons.
        rewrite ReplaceAll_no_match
          by (simpl; by rewrite bool_decide_false).
        by rewrite IHa.
      * intros Hq. rewrite !sapp_cons. by rewrite IHa.
Qed.

Lemma ReplaceAll_escaped_list (l : list string) (tail : string) :
  Forall readable l → starts_with BS tail = false →
  ReplaceAllString_from 0
    (strings_Join ((λ e, in_quotes (escape_element e)) <$> l) "," +:+ tail)
  = strings_Join ((λ e, in_quotes (double_both e)) <$> l) ","
    +:+ ReplaceAllString_from 0 tail.
Proof.
  intros Hl Htail. induction Hl as [|e l [Hq _] Hl IH]; [done|].
  destruct l as [|e2 l].
  - cbn [fmap list_fmap strings_Join]. rewrite !in_quotes_app.
    rewrite (proj1 (ReplaceAll_escaped e (String DQ _) eq_refl)) by done.
    by rewrite ReplaceAll_no_match.
  - rewrite (fmap_cons (λ e, in_quotes (escape_element e)) e),
      (fmap_cons (λ e, in_quotes (double_both e)) e).
    rewrite !strings_Join_cons_fmap, !sapp_assoc, !in_quotes_app.
    rewrite (proj1 (ReplaceAll_escaped e (String DQ _) eq_refl)) by done.
    rewrite ReplaceAll_no_match by done.
    change ("," +:+ ?s) with (String COMMA s).
    rewrite ReplaceAll_no_match; [by rewrite IH|].
    destruct l; [done|]. by rewrite fmap_cons, strings_Join_cons_fmap.
Qed.

Lemma Replace_other (c : ascii) (s : string) :
  c ≠ BS →
  Replace_from 0 (String c s) quoteEscape_backslashes (str1 BS)
  = String c (Replace_from 0 s quoteEscape_backslashes (str1 BS)).
Proof.
  intros Hc. cbn [Replace_from quoteEscape_backslashes String.prefix].
  by destruct (ascii_dec BS c) as [<-|].
Qed.

Lemma Replace_pair (s : string) :
  Replace_from 0 (String BS (String BS s)) quoteEscape_backslashes (str1 BS)
  = String BS (Replace_from 0 s quoteEscape_backslashes (str1 BS)).
Proof.
  cbn [Replace_from quoteEscape_backslashes String.prefix].
  destruct (ascii_dec BS BS) as [_|]; [|done].
  destruct s; reflexivity.
Qed.

Lemma Replace_doubled (e rest : string) :
  Replace_from 0 (double_both e +:+ rest) quoteEscape_backslashes (str1 BS)
  = double_quotes e
    +:+ Replace_from 0 rest quoteEscape_backslashes (str1 BS).
Proof.
  induction e as [|x e IH]; [done|]. cbn [double_both double_quotes].
  destruct (decide (x = BS)) as [->|Hx].
  - rewrite (bool_decide_true (BS = BS)), (bool_decide_false (BS = DQ))
      by done.
    by rewrite !sapp_cons, Replace_pair, IH.
  - rewrite (bool_decide_false (x = BS)) by done.
    case_bool_decide; rewrite !sapp_cons, !Replace_other, IH; done.
Qed.

Lemma Replace_doubled_list (l : list string) (tail : string) :
  Replace_from 0
    (strings_Join ((λ e, in_quotes (double_both e)) <$> l) "," +:+ tail)
    quoteEscape_backslashes (str1 BS)
  = csv_text l +:+ Replace_from 0 tail quoteEscape_backslashes (str1 BS).
Proof.
  unfold csv_text. induction l as [|e l IH]; [done|].
  destruct l as [|e2 l].
  - cbn [fmap list_fmap strings_Join]. rewrite !in_quotes_app.
    by rewrite Replace_other, Replace_doubled, Replace_other.
  - rewrite (fmap_cons (λ e, in_quotes (double_both e)) e),
      (fmap_cons (λ e, in_quotes (double_quotes e)) e).
    rewrite !strings_Join_cons_fmap, !sapp_assoc, !in_quotes_app.
    rewrite Replace_other, Replace_doubled, Replace_other by done.
    change ("," +:+ ?s) with (String COMMA s).
    by rewrite Replace_other, IH.
Qed.

Lemma no_pair_csv_text_fields (l : list string) :
  Forall (λ e, no_pair CR LF e = true) l →
  no_pair CR LF (csv_text l) = true.
Proof.
  induction 1 as [|e l He Hl IH]; [done|].
  rewrite csv_text_cons. simpl.
  apply no_pair_app; [by apply no_pair_double_quotes| |done].
  simpl. unfold csv_tail. destruct l; [done|]. simpl. exact IH.
Qed.

(** The reader on a record of quoted fields. *)
Lemma csv_Read_fields (l : list string) :
  Forall (λ e, no_pair CR LF e = true) l →
  csv_Read (csv_text l)
  = Some (match l with
          | [] => (None, Some EOF)
          | _ => (Some l, None)
          end).
Proof.
  intros Hl. destruct l as [|e l]; [done|].
  pose proof (no_pair_csv_text_fields _ Hl) as Hcrlf.
  pose proof (last_byte_csv_text e l) as Hlast.
  unfold csv_Read. cbn [readRecord].
  destruct (readLine_cur (csv_text (e :: l))) as (line & input & -> & Hcur);
    [by rewrite csv_text_cons|done|by rewrite Hlast|].
  rewrite csv_text_cons in Hcur.
  destruct (parseField_quoted _ _ _ [] 0 Hcur) as (line' & -> & _ & _).
  rewrite <- csv_text_cons in Hcur.
  rewrite bool_decide_false; cycle 1.
  { unfold lengthNL. case_bool_decide as Hnl; simpl; [|lia].
    destruct line'; [done|simpl; lia]. }
  apply (parseField_record l e _ input []); [done|done|lia].
Qed.

(** X12. [Scan] reads back the array text in which every element stands
    between double quotes with its backslashes doubled and its double quotes
    preceded by a backslash, for elements without a carriage return followed
    by a line feed and without two double quotes that only backslashes
    separate; the text of no element leaves the receiver nil. *)
Theorem Scan_array_literal (l : list string) (s0 : StringSlice) :
  Forall readable l →
  StringSlice_Scan s0 (SrcBytes (array_literal l))
  = Returns (match l with [] => None | _ => Some l end) None.
Proof.
  intros Hl. unfold StringSlice_Scan, array_literal,
    quoteEscapeRegex_ReplaceAllString.
  change ("{" +:+ ?X) with (String "{" X).
  rewrite ReplaceAll_no_match; cycle 1.
  { destruct l as [|e [|e2 l]]; [done|done|].
    by rewrite fmap_cons, strings_Join_cons_fmap. }
  rewrite ReplaceAll_escaped_list by done.
  change (ReplaceAllString_from 0 "}") with (str1 "}").
  unfold strings_Replace.
  rewrite Replace_other, Replace_doubled_list by done.
  change (Replace_from 0 (str1 "}") _ _) with (str1 "}").
  rewrite slice_str_middle, csv_Read_fields.
  - by destruct l.
  - eapply Forall_impl; [exact Hl|]. by intros e [_ ?].
Qed.

Lemma Scan_array_literal_witness :
  let l := ["a\b"; str1 DQ; String BS (str1 DQ); "\\"; "";
            "x" +:+ str1 DQ +:+ "\y, z"] in
  Forall readable l ∧
  StringSlice_Scan None (SrcBytes (array_literal l)) = Returns (Some l) None.
Proof.
  split.
  - repeat constructor.
  - apply Scan_array_literal. repeat constructor.
Defined.

(** ** The array text with bare elements *)

Lemma ReplaceAll_absent (s : string) :
  has_byte BS s = false → ReplaceAllString_from 0 s = s.
Proof.
  induction s as [|a s IH]; [done|]. simpl has_byte.
  intros [Ha Hs]%orb_false_elim.
  rewrite ReplaceAll_no_match; [by rewrite IH|].
  destruct s as [|b s]; [done|]. simpl in Hs.
  by apply orb_false_elim in Hs as [? _].
Qed.

Lemma has_byte_Join (c : ascii) (l : list string) (sep : string) :
  Forall (λ e, has_byte c e = false) l → has_byte c sep = false →
  has_byte c (strings_Join l sep) = false.
Proof.
  intros Hl Hsep. induction Hl as [|e l He Hl IH]; [done|].
  destruct l as [|e2 l]; [done|].
  rewrite strings_Join_cons2, !has_byte_app, He, Hsep. exact IH.
Qed.

Lemma take_line_no_LF (s : string) :
  has_byte LF s = false → take_line s = (s, "").
Proof.
  induction s as [|a s IH]; [done|]. simpl.
  intros [Ha Hs]%orb_false_elim. rewrite Ha. by rewrite IH.
Qed.

Lemma last_byte_absent (c : ascii) (s : string) :
  has_byte c s = false → last_byte s ≠ Some c.
Proof. intros Hs Hl. apply has_byte_last in Hl. congruence. Qed.

Lemma readLine_one_line (s : string) :
  s ≠ "" → has_byte LF s = false → has_byte CR s = false →
  readLine s = (s, "", false).
Proof.
  intros Hs Hlf Hcr. unfold readLine. rewrite take_line_no_LF by done.
  rewrite bool_decide_false by done.
  rewrite (bool_decide_false (_ ∧ last_byte s = Some CR));
    [|intros [_ H]; by apply (last_byte_absent CR s)].
  rewrite bool_decide_false; [done|].
  intros [H _]. by apply (last_byte_absent LF s).
Qed.

Lemma IndexByte_absent (s : string) (c : ascii) :
  has_byte c s = false → IndexByte s c = None.
Proof.
  induction s as [|a s IH]; [done|]. simpl.
  intros [Ha Hs]%orb_false_elim. by rewrite Ha, IH.
Qed.

Lemma IndexByte_app (s t : string) (c : ascii) :
  has_byte c s = false →
  IndexByte (s +:+ String c t) c = Some (String.length s).
Proof.
  induction s as [|a s IH].
  - intros _. rewrite sapp_nil_l. simpl. by rewrite bool_decide_true.
  - simpl has_byte. intros [Ha Hs]%orb_false_elim. rewrite sapp_cons.
    simpl. by rewrite Ha, IH.
Qed.

Lemma take_str_app (s t : string) : take_str (String.length s) (s +:+ t) = s.
Proof.
  induction s as [|a s IH]; [by destruct t|].
  rewrite sapp_cons. simpl. by rewrite IH.
Qed.

Lemma take_str_all (s : string) : take_str (String.length s) s = s.
Proof. rewrite <- (sapp_nil_r s) at 2. apply take_str_app. Qed.

Lemma starts_with_absent (c : ascii) (s t : string) :
  has_byte c s = false → starts_with c t = false →
  starts_with c (s +:+ t) = false.
Proof.
  destruct s as [|a s]; [done|]. simpl.
  by intros [Ha _]%orb_false_elim _.
Qed.

Lemma parseField_bare (l : list string) :
  ∀ (fields : list string) (fuel : nat),
    l ≠ [] → Forall bare l →
    (String.length (strings_Join l ",") < fuel)%nat →
    parseField fuel (strings_Join l ",") "" fields
    = Some (Some (fields ++ l), None).
Proof.
  induction l as [|x l IH]; intros fields fuel Hne Hl Hfuel; [done|].
  apply Forall_cons in Hl as [(Hq & _ & Hc & Hlf & _) Hl].
  destruct fuel as [|fuel]; [lia|]. cbn [parseField].
  destruct l as [|y l].
  - cbn [strings_Join]. rewrite <- (sapp_nil_r x) at 1.
    rewrite starts_with_absent by done.
    rewrite (IndexByte_absent x COMMA) by done.
    unfold lengthNL.
    rewrite bool_decide_false by (by apply last_byte_absent).
    rewrite Nat.sub_0_r, take_str_all.
    by rewrite (IndexByte_absent x DQ).
  - rewrite strings_Join_cons2 in *.
    change ("," +:+ ?s) with (String COMMA s) in *.
    rewrite starts_with_absent by done.
    rewrite IndexByte_app, take_str_app by done.
    rewrite (IndexByte_absent x DQ) by done.
    replace (String.length x + 1)%nat
      with (String.length (x +:+ str1 COMMA))
      by (rewrite slength_app; simpl; lia).
    change (String COMMA ?s) with (str1 COMMA +:+ s).
    rewrite <- sapp_assoc, drop_str_app.
    rewrite IH; [by rewrite <- app_assoc|done|done|].
    rewrite slength_app in Hfuel. cbn [String.length] in Hfuel. lia.
Qed.

(** X13. [Scan] reads the array text whose elements stand without quotes,
    separated by commas, as the list of these elements, when they hold no
    double quote, backslash, comma, line feed or carriage return and the text
    between the braces is not empty: an empty element between two commas is
    an empty string, and the four letters NULL are a string like any other. *)
Theorem Scan_bare_elements (l : list string) (s0 : StringSlice) :
  Forall bare l → strings_Join l "," ≠ "" →
  StringSlice_Scan s0 (SrcBytes ("{" +:+ strings_Join l "," +:+ "}"))
  = Returns (Some l) None.
Proof.
  intros Hl Hne.
  assert (Hl0 : l ≠ []) by (by intros ->).
  assert (Hb : ∀ c, c ∈ [DQ; BS; LF; CR] →
                    has_byte c (strings_Join l ",") = false).
  { intros c Hc. apply has_byte_Join.
    - eapply Forall_impl; [exact Hl|].
      intros e (H1 & H2 & _ & H4 & H5).
      repeat (apply elem_of_cons in Hc as [->|Hc]; [done|]).
      by apply elem_of_nil in Hc.
    - repeat (apply elem_of_cons in Hc as [->|Hc]; [done|]).
      by apply elem_of_nil in Hc. }
  assert (Hbs : has_byte BS ("{" +:+ strings_Join l "," +:+ "}") = false).
  { change ("{" +:+ ?X) with (String "{" X). simpl.
    rewrite has_byte_app, (Hb BS) by set_solver. done. }
  unfold StringSlice_Scan, quoteEscapeRegex_ReplaceAllString.
  rewrite ReplaceAll_absent by done.
  unfold strings_Replace, quoteEscape_backslashes.
  rewrite Replace_absent by done.
  change ("{" +:+ ?X +:+ "}") with (String "{" (X +:+ str1 "}")).
  rewrite slice_str_middle. unfold csv_Read. cbn [readRecord].
  rewrite readLine_one_line by (try done; apply Hb; set_solver).
  unfold lengthNL.
  rewrite (bool_decide_false (last_byte _ = Some LF))
    by (apply last_byte_absent, Hb; set_solver).
  rewrite bool_decide_false
    by (destruct (strings_Join l ","); [done|simpl; lia]).
  rewrite parseField_bare by (try done; simpl; lia).
  done.
Qed.

Lemma Scan_bare_elements_witness :
  let l := ["a"; "b c"; ""; "NULL"; ""] in
  Forall bare l ∧ strings_Join l "," ≠ "" ∧
  StringSlice_Scan None (SrcBytes "{a,b c,,NULL,}") = Returns (Some l) None.
Proof.
  assert (H1 : Forall bare ["a"; "b c"; ""; "NULL"; ""])
    by repeat constructor.
  assert (H2 : strings_Join ["a"; "b c"; ""; "NULL"; ""] "," ≠ "") by done.
  split; [exact H1|]. split; [exact H2|].
  exact (Scan_bare_elements _ None H1 H2).
Defined.

(** * Further properties of [Value] *)

Lemma quote_elem_stored (e : string) :
  quote_elem e = in_quotes (stored_text e).
Proof.
  unfold quote_elem, in_quotes. rewrite Replace_quote.
  change (str1 DQ +:+ ?s) with (String DQ s). do 2 f_equal.
  unfold strings_Replace. induction e as [|a e IH]; [done|].
  cbn [Replace_from stored_text]. rewrite prefix_str1.
  cbn [starts_with String.length str1 Nat.sub].
  case_bool_decide as Ha.
  - unfold str1 in *. rewrite !sapp_cons, sapp_nil_l. cbn [escape_quotes].
    rewrite !(bool_decide_false (BS = DQ)) by done. by rewrite IH.
  - cbn [escape_quotes]. by rewrite IH.
Qed.

(** X14. [Value] returns no error and, for every slice, the text made of an
    opening brace, the stored texts of the elements joined by commas, and a
    closing brace, where the stored text of an element is the element between
    double quotes with three backslashes for each backslash and a backslash
    in front of each double quote; the slice keeps its length, and nil stays
    nil. *)
Theorem Value_encoding (s : StringSlice) :
  StringSlice_Value s
  = (match s with
     | Some l => Some ((λ e, in_quotes (stored_text e)) <$> l)
     | None => None
     end,
     "{" +:+ strings_Join ((λ e, in_quotes (stored_text e)) <$> elems s) ","
         +:+ "}",
     None) ∧
  len (StringSlice_Value s).1.1 = len s.
Proof.
  assert (E : ∀ l : list string,
             quote_elem <$> l = (λ e, in_quotes (stored_text e)) <$> l).
  { intros l. apply list_fmap_ext. intros _ e _. apply quote_elem_stored. }
  destruct s as [l|]; [|done].
  pose proof (Value_loop_spec l []) as Hl. simpl in Hl.
  unfold StringSlice_Value, len. simpl. rewrite Hl, E. split; [done|].
  by rewrite length_fmap.
Qed.

(** * Authentication *)

Lemma wrap64_small (z : Z) : - 2 ^ 63 ≤ z < 2 ^ 63 → wrap64 z = z.
Proof. intros Hz. unfold wrap64. rewrite Z.mod_small by lia. lia. Qed.

Lemma wrap64_below (z : Z) :
  - 2 ^ 63 - 2 ^ 64 ≤ z < - 2 ^ 63 → wrap64 z = z + 2 ^ 64.
Proof.
  intros Hz. unfold wrap64.
  replace (z + 2 ^ 63) with (z + 2 ^ 63 + 2 ^ 64 + (-1) * 2 ^ 64) by lia.
  rewrite Z_mod_plus_full, Z.mod_small by lia. lia.
Qed.

Lemma ParseUint_digits_inl (s : string) :
  ∀ n m, ParseUint_digits s n = inl m → all_digits s = true.
Proof.
  induction s as [|c s IH]; intros n m; [done|]. simpl.
  destruct (digit_of c) as [d|]; [|done].
  repeat case_bool_decide; try done. apply IH.
Qed.

(** What [Atoi] takes is a decimal text. *)
Lemma Atoi_inl_decimal (s : string) (t : Z) :
  strconv_Atoi s = inl t → decimal s.
Proof.
  destruct s as [|c s]; [done|]. unfold strconv_Atoi, decimal.
  destruct (decide (c = "+"%char)) as [->|Hp].
  { simpl. case_bool_decide as Hs; [done|].
    destruct (ParseUint_digits s 0) as [un|] eqn:E; [|done].
    intros _. split; [done|]. by eapply ParseUint_digits_inl. }
  destruct (decide (c = "-"%char)) as [->|Hm].
  { simpl. case_bool_decide as Hs; [done|].
    destruct (ParseUint_digits s 0) as [un|] eqn:E; [|done].
    intros _. split; [done|]. by eapply ParseUint_digits_inl. }
  rewrite (bool_decide_false (c = "+"%char)), (bool_decide_false (c = "-"%char))
    by done.
  rewrite (bool_decide_false (_ ∨ _)) by tauto. simpl orb. cbv iota.
  case_bool_decide; [done|].
  destruct (ParseUint_digits (String c s) 0) as [un|] eqn:E; [|done].
  intros _. by eapply ParseUint_digits_inl.
Qed.

Lemma Getenv_set (env : gmap string string) (key tmp : string) :
  env !! key = Some tmp → os_Getenv env key = tmp.
Proof. unfold os_Getenv. by intros ->. Qed.

Lemma slen_pos (s : string) : s ≠ "" → slen s > 0.
Proof. destruct s; [done|]. unfold slen. simpl. lia. Qed.

(** X15. When the variable holds a text that is not empty and is not an
    optional sign followed by decimal digits, [isAuthenticated] returns false
    with the error of [Atoi]; when it holds a negative number, false with the
    error of the negative value.  In both cases nothing is logged and the
    user is not read: a nil [LastAuthenticated] does not make it panic. *)
Theorem isAuthenticated_rejects {Time : Type} `{TimeOps Time}
    (env : gmap string string) (now : Time) (u : User Time) (tmp : string) :
  env !! REQUIRE_AUTH_IN_HOURS = Some tmp → tmp ≠ "" →
  (¬ decimal tmp →
   ∃ e, isAuthenticated env now u
        = ([], AuthReturns false (Some (ErrAtoi tmp e)))) ∧
  (∀ t, strconv_Atoi tmp = inl t → t < 0 →
        isAuthenticated env now u
        = ([], AuthReturns false (Some ErrNegativeHours))).
Proof.
  intros Henv Htmp. unfold isAuthenticated, auth_hours.
  rewrite (Getenv_set _ _ _ Henv).
  rewrite bool_decide_true by (by apply slen_pos). split.
  - intros Hdec. destruct (strconv_Atoi tmp) as [t|e] eqn:E.
    + by apply Atoi_inl_decimal in E.
    + by exists e.
  - intros t -> Ht. by rewrite bool_decide_true.
Qed.

Lemma isAuthenticated_rejects_witness :
  let env : gmap string string := {[ REQUIRE_AUTH_IN_HOURS := "-5" ]} in
  let env' : gmap string string := {[ REQUIRE_AUTH_IN_HOURS := "1 day" ]} in
  env !! REQUIRE_AUTH_IN_HOURS = Some "-5" ∧ "-5" ≠ "" ∧
  strconv_Atoi "-5" = inl (-5) ∧ -5 < 0 ∧
  isAuthenticated env 0 (mkUser 1 "" "" None)
  = ([], AuthReturns false (Some ErrNegativeHours)) ∧
  ¬ decimal "1 day" ∧
  ∃ e, isAuthenticated env' 0 (mkUser 1 "" "" None)
       = ([], AuthReturns false (Some (ErrAtoi "1 day" e))).
Proof.
  assert (H1 : ({[ REQUIRE_AUTH_IN_HOURS := "-5" ]} : gmap string string)
                 !! REQUIRE_AUTH_IN_HOURS = Some "-5") by reflexivity.
  assert (H2 : "-5" ≠ "") by done.
  assert (H3 : strconv_Atoi "-5" = inl (-5)) by reflexivity.
  assert (H4 : -5 < 0) by lia.
  assert (H5 : ({[ REQUIRE_AUTH_IN_HOURS := "1 day" ]} : gmap string string)
                 !! REQUIRE_AUTH_IN_HOURS = Some "1 day") by reflexivity.
  assert (H6 : "1 day" ≠ "") by done.
  assert (H7 : ¬ decimal "1 day").
  { unfold decimal. simpl. done. }
  split; [exact H1|]. split; [exact H2|]. split; [exact H3|].
  split; [exact H4|]. split; [|split; [exact H7|]].
  - exact (proj2 (isAuthenticated_rejects _ 0 (mkUser 1 "" "" None) "-5"
                    H1 H2) _ H3 H4).
  - exact (proj1 (isAuthenticated_rejects _ 0 (mkUser 1 "" "" None) "1 day"
                    H5 H6) H7).
Defined.

(** X16. For a user whose [LastAuthenticated] is nil, [isAuthenticated]
    panics whenever the variable is not set, is empty, or holds a number that
    is not negative. *)
Theorem isAuthenticated_nil_panics {Time : Type} `{TimeOps Time}
    (env : gmap string string) (now : Time) (u : User Time) :
  LastAuthenticated u = None →
  (os_Getenv env REQUIRE_AUTH_IN_HOURS = "" ∨
   ∃ t, strconv_Atoi (os_Getenv env REQUIRE_AUTH_IN_HOURS) = inl t ∧ 0 ≤ t) →
  (isAuthenticated env now u).2 = AuthPanics.
Proof.
  intros Hu Henv. unfold isAuthenticated, auth_hours.
  destruct Henv as [-> | (t & Ht & Hpos)].
  - simpl. by rewrite Hu.
  - rewrite Ht.
    assert (os_Getenv env REQUIRE_AUTH_IN_HOURS ≠ "")
      by (intros E; by rewrite E in Ht).
    rewrite bool_decide_true by (by apply slen_pos).
    rewrite bool_decide_false by lia. by rewrite Hu.
Qed.

Lemma isAuthenticated_nil_panics_witness :
  let env : gmap string string := {[ REQUIRE_AUTH_IN_HOURS := "24" ]} in
  LastAuthenticated (mkUser 1 "a@b" "" (None : option Z)) = None ∧
  (∃ t, strconv_Atoi (os_Getenv env REQUIRE_AUTH_IN_HOURS) = inl t ∧ 0 ≤ t) ∧
  (isAuthenticated env 0 (mkUser 1 "a@b" "" None)).2 = AuthPanics.
Proof.
  assert (H1 : LastAuthenticated (mkUser 1 "a@b" "" (None : option Z)) = None)
    by reflexivity.
  assert (H2 : ∃ t, strconv_Atoi
                      (os_Getenv ({[ REQUIRE_AUTH_IN_HOURS := "24" ]}
                                    : gmap string string)
                         REQUIRE_AUTH_IN_HOURS) = inl t ∧ 0 ≤ t).
  { exists 24. split; [reflexivity|lia]. }
  split; [exact H1|]. split; [exact H2|].
  exact (isAuthenticated_nil_panics _ 0 _ H1 (or_intror H2)).
Defined.

(** X17. When the variable is not set or is empty, [isAuthenticated] logs the
    warning and ends as it does, without a warning, when the variable holds
    168. *)
Theorem isAuthenticated_default_hours {Time : Type} `{TimeOps Time}
    (env : gmap string string) (now : Time) (u : User Time) :
  os_Getenv env REQUIRE_AUTH_IN_HOURS = "" →
  isAuthenticated env now u
  = ([WarnDefaultHours],
     (isAuthenticated (<[REQUIRE_AUTH_IN_HOURS := "168"]> env) now u).2) ∧
  (isAuthenticated (<[REQUIRE_AUTH_IN_HOURS := "168"]> env) now u).1 = [].
Proof.
  intros Henv. unfold isAuthenticated, auth_hours. rewrite Henv.
  rewrite (Getenv_set (<[REQUIRE_AUTH_IN_HOURS:="168"]> env) _ "168")
    by apply lookup_insert_eq.
  simpl. by destruct (LastAuthenticated u).
Qed.

Lemma isAuthenticated_default_hours_witness :
  os_Getenv ∅ REQUIRE_AUTH_IN_HOURS = "" ∧
  isAuthenticated ∅ 1000 (mkUser 1 "" "" (Some 999))
  = ([WarnDefaultHours],
     (isAuthenticated (<[REQUIRE_AUTH_IN_HOURS := "168"]> ∅) 1000
        (mkUser 1 "" "" (Some 999))).2).
Proof.
  assert (H1 : os_Getenv ∅ REQUIRE_AUTH_IN_HOURS = "") by reflexivity.
  split; [exact H1|].
  exact (proj1 (isAuthenticated_default_hours ∅ 1000
                  (mkUser 1 "" "" (Some 999)) H1)).
Defined.

(** X18. For a user with a time of last authentication and a variable that
    holds the number [t]: when [t] is between 0 and 2562047, the verdict is
    whether that time is after [now] moved back by [t] hours; when [t] is
    between 2562048 and 5124095, the offset in nanoseconds has wrapped
    around and the verdict is whether that time is after [now] moved forward
    by 2^64 nanoseconds less [t] hours. *)
Theorem isAuthenticated_verdict {Time : Type} `{TimeOps Time}
    (env : gmap string string) (now last : Time) (u : User Time) (t : Z) :
  LastAuthenticated u = Some last →
  strconv_Atoi (os_Getenv env REQUIRE_AUTH_IN_HOURS) = inl t →
  (0 ≤ t ≤ 2562047 →
   isAuthenticated env now u
   = ([], AuthReturns
            (time_After last (time_Add now (- (t * time_Hour)))) None)) ∧
  (2562048 ≤ t ≤ 5124095 →
   0 < 2 ^ 64 - t * time_Hour ∧
   isAuthenticated env now u
   = ([], AuthReturns
            (time_After last (time_Add now (2 ^ 64 - t * time_Hour)))
            None)).
Proof.
  intros Hu Ht. unfold isAuthenticated, auth_hours. rewrite Ht.
  assert (os_Getenv env REQUIRE_AUTH_IN_HOURS ≠ "")
    by (intros E; by rewrite E in Ht).
  rewrite bool_decide_true by (by apply slen_pos).
  unfold auth_offset, time_Hour. split.
  - intros Hr. rewrite bool_decide_false by lia. rewrite Hu.
    rewrite (wrap64_small (-1 * t)) by lia.
    rewrite wrap64_small by lia. do 4 f_equal. lia.
  - intros Hr. split; [lia|]. rewrite bool_decide_false by lia. rewrite Hu.
    rewrite (wrap64_small (-1 * t)) by lia.
    rewrite wrap64_below by lia. do 4 f_equal. lia.
Qed.

Lemma isAuthenticated_verdict_witness :
  let env : gmap string string := {[ REQUIRE_AUTH_IN_HOURS := "24" ]} in
  let u := mkUser 1 "" "" (Some (100 * time_Hour)) in
  LastAuthenticated u = Some (100 * time_Hour) ∧
  strconv_Atoi (os_Getenv env REQUIRE_AUTH_IN_HOURS) = inl 24 ∧
  0 ≤ 24 ≤ 2562047 ∧
  isAuthenticated env (123 * time_Hour) u = ([], AuthReturns true None) ∧
  isAuthenticated env (125 * time_Hour) u = ([], AuthReturns false None).
Proof.
  assert (H1 : LastAuthenticated (mkUser 1 "" "" (Some (100 * time_Hour)))
               = Some (100 * time_Hour)) by reflexivity.
  assert (H2 : strconv_Atoi
                 (os_Getenv ({[ REQUIRE_AUTH_IN_HOURS := "24" ]}
                               : gmap string string) REQUIRE_AUTH_IN_HOURS)
               = inl 24) by reflexivity.
  assert (H3 : 0 ≤ 24 ≤ 2562047) by lia.
  split; [exact H1|]. split; [exact H2|]. split; [exact H3|]. split.
  - exact (proj1 (isAuthenticated_verdict _ (123 * time_Hour) _ _ 24 H1 H2) H3).
  - exact (proj1 (isAuthenticated_verdict _ (125 * time_Hour) _ _ 24 H1 H2) H3).
Defined.
